(** * Gaussian-process regression notebook: kernels, prior sampling, posterior

    Shallow embedding of the numerical cells of the Gaussian-process notebook
    ([sq_exp], [sq_exp2d], the prior-sampling cell and the two posterior
    cells) and proofs of the properties its specification states.

    Arrays are [cupy] arrays in the source.  Here a two-dimensional array is
    its shape together with its indexing function, a one-dimensional array its
    length and indexing function, and every scalar is a real number: sums,
    products and differences of the source are read as exact arithmetic
    over [R].  Two things are not idealised where a property turns on them.
    The library routines [cupy.linalg.inv] and [cupy.linalg.cholesky] are
    not part of the repository: they are parameters of the cells that call
    them, with a contract where one is needed (an exact inverse
    [inverts], an inverse of a stated accuracy [inverts_within], a
    factorisation [cholesky_contract]), and reference implementations
    ([inv_cofactor], [inv_rounded], [cholesky_ref]) instantiate them.  The
    exponential of the kernels is the exact one in [sq_exp] and [sq_exp2d]
    and a parameter in [sq_exp_with] and [sq_exp2d_with], with [exp64] for
    the two ends of the binary64 range. *)

From Stdlib Require Import Reals Lra Lia Arith List Bool.
Import ListNotations.
Open Scope R_scope.

(** ** Errors raised by the array library *)

(** [ValueError]: operands of inconsistent shapes (broadcasting, matrix
    product, [cdist]); the specification calls it ShapeMismatch.
    [LinAlgError]: a factorisation or inversion that fails; the
    specification calls it NumericalInstability. *)
Inductive error : Type :=
| ValueError
| LinAlgError.

Inductive result (A : Type) : Type :=
| Ok (a : A)
| Err (e : error).

Arguments Ok {A} a.
Arguments Err {A} e.

Definition bind {A B : Type} (r : result A) (k : A -> result B) : result B :=
  match r with
  | Ok a => k a
  | Err e => Err e
  end.

Notation "x <- r ;; k" := (bind r (fun x => k))
  (at level 61, r at next level, right associativity).

(** ** Arrays *)

Record matrix : Type := mkmat {
  shape0 : nat;
  shape1 : nat;
  item : nat -> nat -> R
}.

Record vector : Type := mkvec {
  len : nat;
  vitem : nat -> R
}.

(** [cp.array] of a list of rows, and of a flat list. *)
Definition of_rows (rows : list (list R)) : matrix :=
  mkmat (length rows) (length (hd [] rows))
        (fun i j => nth j (nth i rows []) 0).

Definition of_list (l : list R) : vector :=
  mkvec (length l) (fun i => nth i l 0).

(** Finite sum of [f 0 .. f (n-1)]. *)
Fixpoint rsum (n : nat) (f : nat -> R) : R :=
  match n with
  | O => 0
  | S k => rsum k f + f k
  end.

(** [A.T] *)
Definition transpose (A : matrix) : matrix :=
  mkmat (shape1 A) (shape0 A) (fun i j => item A j i).

(** Broadcasting of one axis: equal extents, or one of them is 1. *)
Definition broadcast_dim (a b : nat) : result nat :=
  if a =? b then Ok a
  else if a =? 1 then Ok b
  else if b =? 1 then Ok a
  else Err ValueError.

(** Index along an axis of extent [dim] of an operand that is broadcast. *)
Definition bidx (dim i : nat) : nat := if dim =? 1 then O else i.

Definition broadcast2 (op : R -> R -> R) (A B : matrix) : result matrix :=
  r <- broadcast_dim (shape0 A) (shape0 B) ;;
  c <- broadcast_dim (shape1 A) (shape1 B) ;;
  Ok (mkmat r c (fun i j =>
        op (item A (bidx (shape0 A) i) (bidx (shape1 A) j))
           (item B (bidx (shape0 B) i) (bidx (shape1 B) j)))).

(** [A - B] and [A + B] on two-dimensional arrays. *)
Definition subtract : matrix -> matrix -> result matrix := broadcast2 Rminus.
Definition add : matrix -> matrix -> result matrix := broadcast2 Rplus.

Definition map_items (f : R -> R) (A : matrix) : matrix :=
  mkmat (shape0 A) (shape1 A) (fun i j => f (item A i j)).

(** [cp.power(A, p)], [cp.exp(A)], [c * A].  [exp_items] is the exact
    exponential: the binary64 result is its rounding, which is 0.0 for an
    argument below about -745 and 1.0 for an argument within 2^-54 of 0. *)
Definition power (A : matrix) (p : nat) : matrix := map_items (fun x => x ^ p) A.
Definition exp_items (A : matrix) : matrix := map_items exp A.
Definition scale (c : R) (A : matrix) : matrix := map_items (fun x => c * x) A.

(** [cp.eye(n)] *)
Definition eye (n : nat) : matrix :=
  mkmat n n (fun i j => if i =? j then 1 else 0).

(** [A @ B] for two-dimensional operands. *)
Definition matmul (A B : matrix) : result matrix :=
  if shape1 A =? shape0 B
  then Ok (mkmat (shape0 A) (shape1 B)
             (fun i j => rsum (shape1 A) (fun k => item A i k * item B k j)))
  else Err ValueError.

(** [A @ v] for a one-dimensional right operand. *)
Definition matvec (A : matrix) (v : vector) : result vector :=
  if shape1 A =? len v
  then Ok (mkvec (shape0 A)
             (fun i => rsum (shape1 A) (fun k => item A i k * vitem v k)))
  else Err ValueError.

(** [A.flatten()] in row-major order. *)
Definition flatten (A : matrix) : vector :=
  mkvec (shape0 A * shape1 A)
        (fun t => item A (t / shape1 A) (t mod shape1 A)).

(** ** The two kernels *)

(** [sq_exp]: pairwise difference by broadcasting [x1 - x2.T]. *)
Definition sq_exp (x1 x2 : matrix) : result matrix :=
  diff <- subtract x1 (transpose x2) ;;
  let sqdiff := power diff 2 in
  Ok (exp_items (scale (-0.5) sqdiff)).

(** [scipy.spatial.distance.cdist]: Euclidean distance between every row of
    [XA] and every row of [XB]; the rows must have the same length. *)
Definition cdist (XA XB : matrix) : result matrix :=
  if shape1 XA =? shape1 XB
  then Ok (mkmat (shape0 XA) (shape0 XB)
             (fun i j => sqrt (rsum (shape1 XA)
                                 (fun k => (item XA i k - item XB j k) ^ 2))))
  else Err ValueError.

(** [sq_exp2d]: the kernel through the Euclidean distance. *)
Definition sq_exp2d (x1 x2 : matrix) : result matrix :=
  d <- cdist x1 x2 ;;
  Ok (exp_items (scale (-0.5) (power d 2))).

(** ** The kernels with the exponential of the array library *)

(** [cp.exp] works on binary64 numbers, and [exp_items] above is the exact
    exponential.  The two differ by a rounding, except at the ends of the
    range, where the binary64 result is exactly 0 or exactly 1.  Where that
    decides a property the kernels are read with the exponential routine as
    a parameter [fexp]: the code is the same, and [sq_exp_with exp] is
    [sq_exp]. *)
Section KernelsWithExp.

Variable fexp : R -> R.

Definition sq_exp_with (x1 x2 : matrix) : result matrix :=
  diff <- subtract x1 (transpose x2) ;;
  let sqdiff := power diff 2 in
  Ok (map_items fexp (scale (-0.5) sqdiff)).

Definition sq_exp2d_with (x1 x2 : matrix) : result matrix :=
  d <- cdist x1 x2 ;;
  Ok (map_items fexp (scale (-0.5) (power d 2))).

End KernelsWithExp.

(** What an exponential routine gives on the arguments of a kernel, which
    are never positive: 1 at 0, a value of [0, 1] everywhere, a positive
    value down to -700 and a value below 1 from -1e-15 on.  The exact
    exponential and the binary64 one both do. *)
Definition exp_routine (fexp : R -> R) : Prop :=
  fexp 0 = 1 /\
  (forall t, t <= 0 -> 0 <= fexp t <= 1) /\
  (forall t, -700 <= t -> t <= 0 -> 0 < fexp t) /\
  (forall t, t <= -1e-15 -> fexp t < 1).

(** The two ends of the binary64 exponential.  Below -746 the exact value
    is under half the smallest positive binary64 number, 2^-1075, and the
    result is 0.0; within 1e-17 of 0 the exact value is within 2^-54 of 1
    and the result is 1.0.  The rounding in between is left out. *)
Definition exp64 (t : R) : R :=
  if Rle_dec t (-746) then 0
  else if Rle_dec (Rabs t) 1e-17 then 1
  else exp t.

(** The first and the last query point of the one-dimensional cell,
    [x_s = cp.linspace(-20, 20, n).reshape(-1, 1)], and two distinct points
    that are 1e-9 apart. *)
Definition X_far_ex : matrix := of_rows [[-20]; [20]].
Definition X_near_ex : matrix := of_rows [[0]; [1e-9]].

(** ** The cells of the notebook *)

Section Cells.

(** [cp.linalg.inv] and [cp.linalg.cholesky]: both raise [LinAlgError]
    when they fail. *)
Variable inv : matrix -> result matrix.
Variable cholesky : matrix -> result matrix.

(** The jitter of the cells: [eps = 1E-6 * cp.eye(n)]. *)
Definition jitter (n : nat) : matrix := scale 1e-6 (eye n).

(** Prior-sampling cell.  [z] holds the values drawn by
    [cp.random.normal(size=(n, num_samples))], [n] being the number of
    input points:
<<
    K = sq_exp(x_train, x_train)
    eps = 1E-6 * cp.eye(n)
    L = cp.linalg.cholesky(K + eps)
    f_prior = cp.dot(L, cp.random.normal(size=(n, 10)))
>> *)
Definition sample_prior (x_train : matrix) (num_samples : nat)
           (z : nat -> nat -> R) : result matrix :=
  let n := shape0 x_train in
  K <- sq_exp x_train x_train ;;
  let eps := jitter n in
  Keps <- add K eps ;;
  L <- cholesky Keps ;;
  matmul L (mkmat n num_samples z).

(** [K_s.T @ cp.linalg.inv(K_samp) @ f_samp], [f_samp] a column. *)
Definition cond_mean (K_samp K_s f_samp : matrix) : result matrix :=
  Ki <- inv K_samp ;;
  a <- matmul (transpose K_s) Ki ;;
  matmul a f_samp.

(** [K_s.T @ cp.linalg.inv(K_samp) @ f_samp.flatten()]. *)
Definition cond_mean_flat (K_samp K_s : matrix) (f_samp : vector) : result vector :=
  Ki <- inv K_samp ;;
  a <- matmul (transpose K_s) Ki ;;
  matvec a f_samp.

(** [K_ss - K_s.T @ cp.linalg.inv(K_samp) @ K_s]. *)
Definition cond_cov (K_samp K_s K_ss : matrix) : result matrix :=
  Ki <- inv K_samp ;;
  a <- matmul (transpose K_s) Ki ;;
  b <- matmul a K_s ;;
  subtract K_ss b.

(** Posterior of the one-dimensional cell, from the training inputs
    [x_samp], the training values [f_samp] (a column) and the query inputs
    [x_s]:
<<
    K_samp = sq_exp(x_samp, x_samp)
    K_ss = sq_exp(x_s, x_s)
    K_s = sq_exp(x_samp, x_s)
    mu_cond = K_s.T @ cp.linalg.inv(K_samp) @ f_samp
    sig_cond = K_ss - K_s.T @ cp.linalg.inv(K_samp) @ K_s
>> *)
Definition posterior_1d (x_samp f_samp x_s : matrix) : result (matrix * matrix) :=
  K_samp <- sq_exp x_samp x_samp ;;
  K_ss <- sq_exp x_s x_s ;;
  K_s <- sq_exp x_samp x_s ;;
  mu_cond <- cond_mean K_samp K_s f_samp ;;
  sig_cond <- cond_cov K_samp K_s K_ss ;;
  Ok (mu_cond, sig_cond).

(** Posterior of the two-dimensional cell; the training values are a flat
    array and the kernel is [sq_exp2d]. *)
Definition posterior_2d (x_samp : matrix) (f_samp : vector) (x_s : matrix)
  : result (vector * matrix) :=
  K_samp <- sq_exp2d x_samp x_samp ;;
  K_ss <- sq_exp2d x_s x_s ;;
  K_s <- sq_exp2d x_samp x_s ;;
  mu_cond <- cond_mean_flat K_samp K_s f_samp ;;
  sig_cond <- cond_cov K_samp K_s K_ss ;;
  Ok (mu_cond, sig_cond).

(** The posterior cells as they run: the factor [L_samp] of the jittered
    training kernel is computed first (and not read afterwards). *)
Definition cell_posterior_1d (x_samp f_samp x_s : matrix) : result (matrix * matrix) :=
  K_samp <- sq_exp x_samp x_samp ;;
  Keps <- add K_samp (jitter (shape0 x_samp)) ;;
  L_samp <- cholesky Keps ;;
  posterior_1d x_samp f_samp x_s.

Definition cell_posterior_2d (x_samp : matrix) (f_samp : vector) (x_s : matrix)
  : result (vector * matrix) :=
  K_samp <- sq_exp2d x_samp x_samp ;;
  Keps <- add K_samp (jitter (shape0 x_samp)) ;;
  L_samp <- cholesky Keps ;;
  posterior_2d x_samp f_samp x_s.

End Cells.

(** ** Vocabulary of the specification *)

(** Squared Euclidean distance between row [i] of [x1] and row [j] of [x2],
    both of dimension [d]. *)
Definition sq_dist (d : nat) (x1 : matrix) (i : nat) (x2 : matrix) (j : nat) : R :=
  rsum d (fun k => (item x1 i k - item x2 j k) ^ 2).

(** The squared-exponential kernel with unit length scale. *)
Definition k_se (d : nat) (x1 : matrix) (i : nat) (x2 : matrix) (j : nat) : R :=
  exp (-0.5 * sq_dist d x1 i x2 j).

Definition has_shape (A : matrix) (r c : nat) : Prop :=
  shape0 A = r /\ shape1 A = c.

(** Entrywise closeness of two arrays of the same shape. *)
Definition allclose (tol : R) (A B : matrix) : Prop :=
  shape0 A = shape0 B /\ shape1 A = shape1 B /\
  forall i j, (i < shape0 A)%nat -> (j < shape1 A)%nat ->
    Rabs (item A i j - item B i j) <= tol.

(** Rows [i] of [x1] and [j] of [x2] are the same point of dimension [d]. *)
Definition same_point (d : nat) (x1 : matrix) (i : nat) (x2 : matrix) (j : nat) : Prop :=
  forall k, (k < d)%nat -> item x1 i k = item x2 j k.

(** Kronecker delta. *)
Definition delta (i j : nat) : R := if i =? j then 1 else 0.

(** The kernel between the rows of two point sets, as a table. *)
Definition kernel_table (d : nat) (x1 x2 : matrix) : nat -> nat -> R :=
  fun i j => k_se d x1 i x2 j.

(** Entry [q] of [K_s^T . K^-1 . y], for [m] training points. *)
Definition gp_mean (m : nat) (Ks Ki : nat -> nat -> R) (y : nat -> R) (q : nat) : R :=
  rsum m (fun l => rsum m (fun k => Ks k q * Ki k l) * y l).

(** Entry [(p, q)] of [K_ss - K_s^T . K^-1 . K_s]. *)
Definition gp_cov (m : nat) (Kss Ks Ki : nat -> nat -> R) (p q : nat) : R :=
  Kss p q - rsum m (fun l => rsum m (fun k => Ks k p * Ki k l) * Ks l q).

(** ** Contracts of the library routines *)

(** [Ki] is an inverse of the square array [K]: [K @ Ki] is the identity
    array. *)
Definition is_inverse_of (K Ki : matrix) : Prop :=
  has_shape K (shape0 K) (shape0 K) /\
  has_shape Ki (shape0 K) (shape0 K) /\
  forall i j, (i < shape0 K)%nat -> (j < shape0 K)%nat ->
    rsum (shape0 K) (fun k => item K i k * item Ki k j) = delta i j.

(** Quadratic form of the leading [n] by [n] block of [A]. *)
Definition quad (n : nat) (A : nat -> nat -> R) (c : nat -> R) : R :=
  rsum n (fun i => rsum n (fun j => c i * c j * A i j)).

Definition symmetric (n : nat) (A : nat -> nat -> R) : Prop :=
  forall i j, (i < n)%nat -> (j < n)%nat -> A i j = A j i.

Definition pos_semidef (n : nat) (A : nat -> nat -> R) : Prop :=
  forall c, 0 <= quad n A c.

Definition pos_def (n : nat) (A : nat -> nat -> R) : Prop :=
  forall c, (exists i, (i < n)%nat /\ c i <> 0) -> 0 < quad n A c.

Definition lower_triangular (n : nat) (L : nat -> nat -> R) : Prop :=
  forall i j, (i < j)%nat -> (j < n)%nat -> L i j = 0.

(** [L] is a Cholesky factor of the [n] by [n] array [A]. *)
Definition is_cholesky_of (n : nat) (A L : nat -> nat -> R) : Prop :=
  lower_triangular n L /\
  forall i j, (i < n)%nat -> (j < n)%nat ->
    rsum n (fun k => L i k * L j k) = A i j.

(** What [cp.linalg.cholesky] promises: a symmetric positive-definite array
    has a lower-triangular factor, which is returned. *)
Definition cholesky_contract (cholesky : matrix -> result matrix) : Prop :=
  forall A n, has_shape A n n -> symmetric n (item A) -> pos_def n (item A) ->
    exists L, cholesky A = Ok L /\ has_shape L n n /\
              is_cholesky_of n (item A) (item L).

(** The training kernel was built, it is invertible, and [inv] returns its
    inverse [Ki]. *)
Definition inverts (inv : matrix -> result matrix) (K : result matrix)
           (Ki : matrix) : Prop :=
  exists K0, K = Ok K0 /\ inv K0 = Ok Ki /\ is_inverse_of K0 Ki.



(** ** Reference implementations of the library routines *)

(** Inverse by cofactors, for arrays of order 1 and 2. *)
Definition inv_cofactor (A : matrix) : result matrix :=
  match shape0 A, shape1 A with
  | 1%nat, 1%nat =>
      if Req_dec_T (item A 0 0) 0 then Err LinAlgError
      else Ok (mkmat 1 1 (fun _ _ => / item A 0 0))
  | 2%nat, 2%nat =>
      let det := item A 0 0 * item A 1 1 - item A 0 1 * item A 1 0 in
      if Req_dec_T det 0 then Err LinAlgError
      else Ok (mkmat 2 2 (fun i j =>
                 match i, j with
                 | O, O => item A 1 1 / det
                 | O, _ => - item A 0 1 / det
                 | _, O => - item A 1 0 / det
                 | _, _ => item A 0 0 / det
                 end))
  | _, _ => Err LinAlgError
  end.




(** The array left after eliminating the first row and column of [A]. *)
Definition eliminate (A : nat -> nat -> R) : nat -> nat -> R :=
  fun i j => A (S i) (S j) - A (S i) O * A (S j) O / A O O.

(** Cholesky factorisation by elimination of the first row and column. *)
Fixpoint chol (n : nat) (A : nat -> nat -> R) : result (nat -> nat -> R) :=
  match n with
  | O => Ok (fun _ _ => 0)
  | S n' =>
      if Rlt_dec 0 (A O O) then
        let l := sqrt (A O O) in
        L' <- chol n' (eliminate A) ;;
        Ok (fun i j =>
              match i, j with
              | O, O => l
              | O, S _ => 0
              | S i', O => A (S i') O / l
              | S i', S j' => L' i' j'
              end)
      else Err LinAlgError
  end.

Definition cholesky_ref (A : matrix) : result matrix :=
  if shape0 A =? shape1 A
  then L <- chol (shape0 A) (item A) ;; Ok (mkmat (shape0 A) (shape0 A) L)
  else Err LinAlgError.

(** ** The joint kernel of the training points and one query point *)




(** ** Inputs of the notebook and of the specification *)

(** [x1 = cp.array([[2, 2], [2, 1], [1, 2], [1, 1]])] *)
Definition x1_grid : matrix := of_rows [[2; 2]; [2; 1]; [1; 2]; [1; 1]].

(** The concrete scenario of the specification. *)
Definition X_train_ex : matrix := of_rows [[-1.0]; [1.0]].
Definition y_train_ex : matrix := of_rows [[-0.8415]; [0.8415]].
Definition X_query_ex : matrix := of_rows [[0.0]].

(** Two query points of dimension two, and the training values as a flat
    array. *)
Definition X_query_2d : matrix := of_rows [[0.0; 0.0]; [1.0; 1.0]].
Definition y_flat_ex : vector := of_list [-0.8415; 0.8415].

(** The first two training points of the two-dimensional cell,
    [x_samp = cp.array([[0, 3], [1, 2], ...])]. *)
Definition X_train_2d : matrix := of_rows [[0; 3]; [1; 2]].

(** Training values that are one short of the two training points, and a
    table of drawn values for the prior. *)
Definition y_short_ex : matrix := of_rows [[0.5]].
Definition y_short_flat : vector := of_list [0.5].
Definition z_ex : nat -> nat -> R := fun i s => INR (i + s).

Definition y_wide_ex : matrix := of_rows [[1; 2; 3]; [4; 5; 6]].

(** ** More of the Gaussian-process notebook *)

(** The conditional of a bivariate Gaussian, as the cell and the widget
    [plot_conditional] compute it from the globals [mu1 .. sig22]:
<<
    mu_2g1 = mu2 + sig21 * 1 / sig11 * (x1 - mu1)
    sig_2g1 = sig22 - sig21 * 1 / sig11 * sig12
>>
    [None] is the [ZeroDivisionError] of a division by [sig11 = 0]. *)
Definition conditional (mu1 mu2 sig11 sig12 sig21 sig22 x1 : R) : option (R * R) :=
  if Req_dec_T sig11 0 then None
  else
    let mu_2g1 := mu2 + sig21 * 1 / sig11 * (x1 - mu1) in
    let sig_2g1 := sig22 - sig21 * 1 / sig11 * sig12 in
    Some (mu_2g1, sig_2g1).

(** [true_function_1d]: [x = x + 1E-10; return cp.sin(x)]. *)
Definition true_function_1d (x : matrix) : matrix :=
  let x := map_items (fun v => v + 1e-10) x in
  map_items sin x.

(** One-dimensional arrays: [cp.sin(v)] and [a + b] with broadcasting. *)
Definition vmap (f : R -> R) (v : vector) : vector :=
  mkvec (len v) (fun i => f (vitem v i)).

Definition vadd (a b : vector) : result vector :=
  n <- broadcast_dim (len a) (len b) ;;
  Ok (mkvec n (fun i => vitem a (bidx (len a) i) + vitem b (bidx (len b) i))).

(** [true_function]: [cp.sin(x1) + cp.sin(x2)], on one-dimensional arrays. *)
Definition true_function (x1 x2 : vector) : result vector :=
  vadd (vmap sin x1) (vmap sin x2).

(** [A[:, j]]; [None] is the [IndexError] of a column that does not exist. *)
Definition column (A : matrix) (j : nat) : option vector :=
  if j <? shape1 A then Some (mkvec (shape0 A) (fun i => item A i j)) else None.

(** [cp.linspace(start, stop, num)]: [num] evenly spaced values, the last
    one set to [stop]. *)
Definition linspace (start stop : R) (num : nat) : vector :=
  mkvec num (fun i =>
    if (1 <? num) && (i =? num - 1) then stop
    else if 1 <? num then start + INR i * ((stop - start) / INR (num - 1))
    else start).

(** [cp.meshgrid(x, y)] *)
Definition meshgrid (x y : vector) : matrix * matrix :=
  (mkmat (len y) (len x) (fun _ j => vitem x j),
   mkmat (len y) (len x) (fun i _ => vitem y i)).

(** [cp.vstack([a, b])] of two one-dimensional arrays. *)
Definition vstack (a b : vector) : result matrix :=
  if len a =? len b
  then Ok (mkmat 2 (len a) (fun i j => match i with
                                       | O => vitem a j
                                       | _ => vitem b j
                                       end))
  else Err ValueError.

(** The query points of the two-dimensional cell, [x_spts.T]:
<<
    xx1, xx2 = cp.meshgrid(x_points, x_points)
    x_spts = cp.vstack([xx1.flatten(), xx2.flatten()])
>> *)
Definition grid_points (x_points : vector) : result matrix :=
  let (xx1, xx2) := meshgrid x_points x_points in
  x_spts <- vstack (flatten xx1) (flatten xx2) ;;
  Ok (transpose x_spts).

Section WrittenCells.

Variable inv : matrix -> result matrix.
Variable cholesky : matrix -> result matrix.

(** The one-dimensional posterior cell with its training values,
    [f_samp = true_function_1d(x_samp)]. *)
Definition written_cell_1d (x_samp x_s : matrix) : result (matrix * matrix) :=
  let f_samp := true_function_1d x_samp in
  cell_posterior_1d inv cholesky x_samp f_samp x_s.

(** The two-dimensional posterior cell with its training values,
    [f_samp = true_function(x_samp[:, 0], x_samp[:, 1])], and its query grid.
    [None] is the [IndexError] of the column slices. *)
Definition written_cell_2d (x_samp : matrix) (x_points : vector)
  : option (result (vector * matrix)) :=
  match column x_samp 0, column x_samp 1 with
  | Some c0, Some c1 =>
      Some (f_samp <- true_function c0 c1 ;;
            x_s <- grid_points x_points ;;
            cell_posterior_2d inv cholesky x_samp f_samp x_s)
  | _, _ => None
  end.

End WrittenCells.

(** Largest of [f 0 .. f n]. *)
Fixpoint rmax (n : nat) (f : nat -> R) : R :=
  match n with
  | O => f O
  | S k => Rmax (rmax k f) (f (S k))
  end.

(** [A.max()]; [None] is the [ValueError] of a zero-size array. *)
Definition amax (A : matrix) : option R :=
  if (shape0 A =? 0) || (shape1 A =? 0) then None
  else Some (rmax (shape0 A - 1) (fun i => rmax (shape1 A - 1) (fun j => item A i j))).

(** [cp.where(A == v)]: the positions of the entries equal to [v], in
    row-major order, as (row, column) pairs. *)
Definition where_eq (A : matrix) (v : R) : list (nat * nat) :=
  flat_map (fun i =>
    map (fun j => (i, j))
        (filter (fun j => if Req_dec_T (item A i j) v then true else false)
                (seq 0 (shape1 A))))
    (seq 0 (shape0 A)).

(** [v[i]] for an index [i >= 0]; [None] is the [IndexError]. *)
Definition take (v : vector) (i : nat) : option R :=
  if i <? len v then Some (vitem v i) else None.

(** [v[idx]] for an array of indices. *)
Fixpoint take_all (v : vector) (idx : list nat) : option (list R) :=
  match idx with
  | [] => Some []
  | i :: rest =>
      match take v i, take_all v rest with
      | Some x, Some xs => Some (x :: xs)
      | _, _ => None
      end
  end.

(** The last cell, the grid point of largest uncertainty:
<<
    x2_new, x1_new = cp.where(uncertainty == uncertainty.max())
    xx1_s, xx2_s = cp.meshgrid(x_points, x_points)
    xx1_s.flatten()[x1_new], xx2_s.flatten()[x2_new]
>> *)
Definition next_point (x_points : vector) (uncertainty : matrix)
  : option (list R * list R) :=
  match amax uncertainty with
  | None => None
  | Some top =>
      let found := where_eq uncertainty top in
      let x2_new := map fst found in
      let x1_new := map snd found in
      let (xx1_s, xx2_s) := meshgrid x_points x_points in
      match take_all (flatten xx1_s) x1_new, take_all (flatten xx2_s) x2_new with
      | Some a, Some b => Some (a, b)
      | _, _ => None
      end
  end.

(** ** The survival-analysis notebook *)

(** A row of the data frame after the conversions of the notebook: [time]
    in months, [event] and [metastized] as 0 or 1.  The columns are 64-bit
    integers. *)
Record patient : Type := mkpatient {
  time : Z;
  event : Z;
  metastized : Z
}.

(** Addition and subtraction of 64-bit integers wrap around. *)
Definition wrap64 (z : Z) : Z := ((z + 2 ^ 63) mod 2 ^ 64 - 2 ^ 63)%Z.

Definition interval_length : Z := 3%Z.

(** [df.time.max()]; [None] for an empty frame, whose maximum is not a
    number. *)
Definition time_max (df : list patient) : option Z :=
  match df with
  | [] => None
  | p :: rest => Some (fold_left Z.max (map time rest) (time p))
  end.

(** [np.arange(start, stop, step)] on integers, [step > 0]. *)
Definition arange (start stop step : Z) : list Z :=
  map (fun k => (start + Z.of_nat k * step)%Z)
      (seq 0 (Z.to_nat ((stop - start + step - 1) / step))).

(** [interval_bounds = np.arange(0, df.time.max() + interval_length + 1,
    interval_length)]; [None] when the frame is empty. *)
Definition interval_bounds (df : list patient) : option (list Z) :=
  match time_max df with
  | None => None
  | Some tmax =>
      Some (arange 0 (wrap64 (wrap64 (tmax + interval_length) + 1)) interval_length)
  end.

(** [n_intervals = interval_bounds.size - 1] *)
Definition n_intervals (bounds : list Z) : Z := (Z.of_nat (length bounds) - 1)%Z.

(** [last_period = np.floor((df.time - 0.01) / interval_length)], then
    [.astype(int)].  The subtraction and the division are exact here; in
    binary64 they are rounded, and the result is the same floor as long as
    the time is below 2^32 (the two roundings then move the quotient by less
    than 1e-6, and it stays 0.003 away from every integer).  From about 2^47
    on, [t - 0.01] rounds back to [t] and the program's last period of a
    multiple of 3 is [t / 3] instead of [t / 3 - 1]. *)
Definition last_period (t : Z) : Z :=
  Int_part ((IZR t - 0.01) / IZR interval_length).

(** An index into an axis of extent [n]: negative indices count from the
    end; [None] is the [IndexError]. *)
Definition norm_index (n : nat) (k : Z) : option nat :=
  if (0 <=? k)%Z && (k <? Z.of_nat n)%Z then Some (Z.to_nat k)
  else if (- Z.of_nat n <=? k)%Z && (k <? 0)%Z then Some (Z.to_nat (Z.of_nat n + k))
  else None.

Definition is_some {A : Type} (o : option A) : bool :=
  match o with Some _ => true | None => false end.

(** The death indicator:
<<
    death = np.zeros((n_patients, n_intervals))
    death[patients.astype(int), last_period.values.astype(int)] = df.event.values
>>
    [None] when [np.zeros] is given a negative extent or an index is out of
    bounds. *)
Definition death (df : list patient) (bounds : list Z) : option matrix :=
  if (n_intervals bounds <? 0)%Z then None
  else
    let n := Z.to_nat (n_intervals bounds) in
    if forallb (fun p => is_some (norm_index n (last_period (time p)))) df
    then Some (mkmat (length df) n (fun i j =>
           match nth_error df i with
           | Some p =>
               match norm_index n (last_period (time p)) with
               | Some c => if j =? c then IZR (event p) else 0
               | None => 0
               end
           | None => 0
           end))
    else None.

(** Two-dimensional arrays of integers. *)
Record zmatrix : Type := mkzmat {
  zshape0 : nat;
  zshape1 : nat;
  zitem : nat -> nat -> Z
}.

(** The exposure of every patient in every interval:
<<
    exposure = (
        np.greater_equal.outer(df.time.values, interval_bounds[:-1]) * interval_length
    )
    exposure[patients, last_period.values.astype(int)] = (
        df.time - interval_bounds[last_period.values.astype(int)]
    )
>>
    [None] when an index is out of bounds, of [interval_bounds] on the right
    or of [exposure] on the left. *)
Definition exposure (df : list patient) (bounds : list Z) : option zmatrix :=
  let lower := removelast bounds in
  let n := length lower in
  if forallb (fun p => is_some (norm_index (length bounds) (last_period (time p)))
                       && is_some (norm_index n (last_period (time p)))) df
  then Some (mkzmat (length df) n (fun i j =>
         match nth_error df i with
         | Some p =>
             match norm_index (length bounds) (last_period (time p)),
                   norm_index n (last_period (time p)) with
             | Some b, Some c =>
                 if j =? c then wrap64 (time p - nth b bounds 0%Z)
                 else if (nth j lower 0%Z <=? time p)%Z then interval_length
                 else 0%Z
             | _, _ => 0%Z
             end
         | None => 0%Z
         end))
  else None.

(** Sum of [f 0 .. f (n-1)] over the integers. *)
Fixpoint zsum (n : nat) (f : nat -> Z) : Z :=
  match n with
  | O => 0%Z
  | S k => (zsum k f + f k)%Z
  end.

(** [A.cumsum(axis=-1)] *)
Definition cumsum_last (A : matrix) : matrix :=
  mkmat (shape0 A) (shape1 A) (fun i j => rsum (S j) (fun k => item A i k)).

(** [cum_hazard]: [(interval_length * hazard).cumsum(axis=-1)]. *)
Definition cum_hazard (hazard : matrix) : matrix :=
  cumsum_last (scale (IZR interval_length) hazard).

(** [survival]: [np.exp(-cum_hazard(hazard))]. *)
Definition survival (hazard : matrix) : matrix :=
  exp_items (map_items Ropp (cum_hazard hazard)).

(** [np.atleast_2d(v)] of a one-dimensional array. *)
Definition atleast_2d (v : vector) : matrix :=
  mkmat 1 (len v) (fun _ j => vitem v j).

(** [met_hazard = trace["lambda0"] * np.exp(np.atleast_2d(trace["beta"]).T)] *)
Definition met_hazard (lambda0 : matrix) (beta : vector) : result matrix :=
  broadcast2 Rmult lambda0 (exp_items (transpose (atleast_2d beta))).

(** A training set with a duplicated point, and a table of uncertainties
    whose largest entry is in row 1, column 0. *)
Definition X_dup_ex : matrix := of_rows [[1]; [1]].
Definition uncertainty_ex : matrix := of_rows [[1; 2]; [5; 3]].

(** Inputs for the survival cells: three patients, a trace of two draws. *)
Definition df_ex : list patient :=
  [mkpatient 5 1 0; mkpatient 9 0 1; mkpatient 7 1 1].
Definition lambda0_ex : matrix := of_rows [[0.1; 0.2; 0.3]; [0.2; 0.1; 0.4]].
Definition beta_ex : vector := of_list [0.5; -1].

(** ** Finite sums *)

Lemma rsum_ext n f g :
  (forall k, (k < n)%nat -> f k = g k) -> rsum n f = rsum n g.
Proof.
  induction n as [|n IH]; intros H; simpl; [reflexivity|].
  rewrite IH by (intros; apply H; lia).
  rewrite H by lia. reflexivity.
Qed.

Lemma rsum_nonneg n f :
  (forall k, (k < n)%nat -> 0 <= f k) -> 0 <= rsum n f.
Proof.
  induction n as [|n IH]; intros H; simpl; [lra|].
  assert (0 <= rsum n f) by (apply IH; intros; apply H; lia).
  assert (0 <= f n) by (apply H; lia). lra.
Qed.

Lemma rsum_zero_terms n f :
  (forall k, (k < n)%nat -> 0 <= f k) -> rsum n f = 0 ->
  forall k, (k < n)%nat -> f k = 0.
Proof.
  induction n as [|n IH]; intros Hpos Hsum k Hk; [lia|].
  simpl in Hsum.
  assert (0 <= rsum n f) by (apply rsum_nonneg; intros; apply Hpos; lia).
  assert (0 <= f n) by (apply Hpos; lia).
  destruct (Nat.eq_dec k n) as [->|Hne]; [lra|].
  apply IH; [intros; apply Hpos; lia | lra | lia].
Qed.

Lemma rsum_zero n : rsum n (fun _ => 0) = 0.
Proof. induction n; simpl; lra. Qed.

Lemma rsum_plus n f g :
  rsum n (fun k => f k + g k) = rsum n f + rsum n g.
Proof. induction n as [|n IH]; simpl; [lra|rewrite IH; lra]. Qed.

Lemma rsum_minus n f g :
  rsum n (fun k => f k - g k) = rsum n f - rsum n g.
Proof. induction n as [|n IH]; simpl; [lra|rewrite IH; lra]. Qed.

Lemma rsum_scal n c f :
  rsum n (fun k => c * f k) = c * rsum n f.
Proof. induction n as [|n IH]; simpl; [lra|rewrite IH; lra]. Qed.

Lemma rsum_scal_r n c f :
  rsum n (fun k => f k * c) = rsum n f * c.
Proof. induction n as [|n IH]; simpl; [lra|rewrite IH; lra]. Qed.


Lemma rsum_shift n f :
  rsum (S n) f = f O + rsum n (fun k => f (S k)).
Proof.
  induction n as [|n IH]; [simpl; lra|].
  change (rsum (S (S n)) f) with (rsum (S n) f + f (S n)).
  rewrite IH. simpl. lra.
Qed.

Lemma rsum_delta_l n i f :
  (i < n)%nat -> rsum n (fun k => delta i k * f k) = f i.
Proof.
  unfold delta. induction n as [|n IH]; intros Hi; [lia|]. simpl.
  destruct (Nat.eqb_spec i n) as [->|Hne].
  - rewrite (rsum_ext n _ (fun _ => 0)), rsum_zero; [lra|].
    intros k Hk. destruct (Nat.eqb_spec n k); [lia|lra].
  - rewrite IH by lia. lra.
Qed.


Lemma rsum_mult n m f g :
  rsum n f * rsum m g = rsum n (fun i => rsum m (fun j => f i * g j)).
Proof.
  rewrite <- rsum_scal_r. apply rsum_ext. intros i _.
  rewrite rsum_scal. reflexivity.
Qed.

(** ** The kernels *)

Lemma sq_dist_nonneg d x1 i x2 j : 0 <= sq_dist d x1 i x2 j.
Proof.
  apply rsum_nonneg. intros k _. apply pow2_ge_0.
Qed.

Lemma sq_dist_zero_iff d x1 i x2 j :
  sq_dist d x1 i x2 j = 0 <-> same_point d x1 i x2 j.
Proof.
  split.
  - intros H k Hk.
    pose proof (rsum_zero_terms d _ (fun k _ => pow2_ge_0 _) H k Hk) as Hz.
    simpl in Hz. nra.
  - intros H. unfold sq_dist.
    rewrite (rsum_ext d _ (fun _ => 0)).
    + clear. induction d; simpl; lra.
    + intros k Hk. rewrite (H k Hk). simpl. lra.
Qed.

Lemma exp_neg_half_range s : 0 <= s -> 0 < exp (-0.5 * s) <= 1.
Proof.
  intros Hs. split; [apply exp_pos|].
  destruct (Req_dec_T s 0) as [->|Hne].
  - replace (-0.5 * 0) with 0 by lra. rewrite exp_0. lra.
  - left. rewrite <- exp_0. apply exp_increasing. lra.
Qed.

Lemma exp_neg_half_one s : 0 <= s -> (exp (-0.5 * s) = 1 <-> s = 0).
Proof.
  intros Hs. split.
  - intros H. rewrite <- exp_0 in H. apply exp_inv in H. lra.
  - intros ->. replace (-0.5 * 0) with 0 by lra. apply exp_0.
Qed.

Lemma k_se_range d x1 i x2 j : 0 < k_se d x1 i x2 j <= 1.
Proof. apply exp_neg_half_range, sq_dist_nonneg. Qed.

Lemma k_se_one_iff d x1 i x2 j :
  k_se d x1 i x2 j = 1 <-> same_point d x1 i x2 j.
Proof.
  unfold k_se. rewrite exp_neg_half_one by apply sq_dist_nonneg.
  apply sq_dist_zero_iff.
Qed.

Lemma sq_dist_sym d x1 i x2 j : sq_dist d x1 i x2 j = sq_dist d x2 j x1 i.
Proof. apply rsum_ext. intros k _. simpl. lra. Qed.

Lemma k_se_sym d x1 i x2 j : k_se d x1 i x2 j = k_se d x2 j x1 i.
Proof. unfold k_se. rewrite sq_dist_sym. reflexivity. Qed.

Lemma k_se_same_point d x1 i x2 j x3 k :
  same_point d x2 j x3 k -> k_se d x1 i x2 j = k_se d x1 i x3 k.
Proof.
  intros H. unfold k_se, sq_dist. do 2 f_equal.
  apply rsum_ext. intros t Ht. rewrite (H t Ht). reflexivity.
Qed.

Lemma k_se_diag d x i : k_se d x i x i = 1.
Proof. apply k_se_one_iff. intros k _. reflexivity. Qed.

Lemma k_se_rows d x1 i x2 j y1 i' y2 j' :
  same_point d x1 i y1 i' -> same_point d x2 j y2 j' ->
  k_se d x1 i x2 j = k_se d y1 i' y2 j'.
Proof.
  intros H1 H2. unfold k_se, sq_dist. do 2 f_equal.
  apply rsum_ext. intros k Hk. rewrite (H1 k Hk), (H2 k Hk). reflexivity.
Qed.


(** *** The kernels compute the squared exponential *)

Lemma bidx_lt dim i : (i < dim)%nat -> bidx dim i = i.
Proof.
  unfold bidx. destruct (Nat.eqb_spec dim 1); intros; lia.
Qed.

Lemma broadcast_dim_l a : broadcast_dim a 1 = Ok a.
Proof.
  unfold broadcast_dim.
  destruct (Nat.eqb_spec a 1); [subst; reflexivity|reflexivity].
Qed.

Lemma broadcast_dim_r b : broadcast_dim 1 b = Ok b.
Proof.
  unfold broadcast_dim.
  destruct (Nat.eqb_spec 1 b); [subst; reflexivity|reflexivity].
Qed.

Lemma broadcast_dim_refl a : broadcast_dim a a = Ok a.
Proof. unfold broadcast_dim. rewrite Nat.eqb_refl. reflexivity. Qed.

Lemma sq_exp2d_spec x1 x2 :
  shape1 x1 = shape1 x2 ->
  exists K, sq_exp2d x1 x2 = Ok K /\
    has_shape K (shape0 x1) (shape0 x2) /\
    forall i j, item K i j = k_se (shape1 x1) x1 i x2 j.
Proof.
  intros Hd. unfold sq_exp2d, cdist.
  rewrite Hd, Nat.eqb_refl. simpl.
  eexists. split; [reflexivity|]. split; [split; reflexivity|].
  intros i j. simpl. unfold k_se, sq_dist. rewrite <- Hd.
  f_equal. f_equal.
  rewrite Rmult_1_r. apply sqrt_sqrt.
  apply rsum_nonneg. intros k _. apply pow2_ge_0.
Qed.

Lemma sq_exp_spec x1 x2 :
  shape1 x1 = 1%nat -> shape1 x2 = 1%nat ->
  exists K, sq_exp x1 x2 = Ok K /\
    has_shape K (shape0 x1) (shape0 x2) /\
    forall i j, (i < shape0 x1)%nat -> (j < shape0 x2)%nat ->
      item K i j = k_se 1 x1 i x2 j.
Proof.
  intros H1 H2. unfold sq_exp, subtract, broadcast2. simpl.
  rewrite H1, H2, broadcast_dim_l, broadcast_dim_r. simpl.
  eexists. split; [reflexivity|]. split; [split; reflexivity|].
  intros i j Hi Hj. simpl.
  rewrite (bidx_lt _ _ Hi), (bidx_lt _ _ Hj).
  unfold k_se, sq_dist, bidx. simpl. f_equal. lra.
Qed.

(** Every entry that [sq_exp] produces, whatever the shapes that were
    broadcast, is the exponential of a non-positive number. *)
Lemma sq_exp_items x1 x2 K :
  sq_exp x1 x2 = Ok K ->
  forall i j, exists t, item K i j = exp (-0.5 * (t ^ 2)).
Proof.
  unfold sq_exp, subtract, broadcast2. intros H i j.
  destruct (broadcast_dim (shape0 x1) (shape0 (transpose x2))); [|discriminate].
  destruct (broadcast_dim (shape1 x1) (shape1 (transpose x2))); [|discriminate].
  simpl in H. injection H as <-. simpl. eexists. reflexivity.
Qed.

Lemma sq_exp_table x1 x2 m n :
  has_shape x1 m 1 -> has_shape x2 n 1 ->
  exists K, sq_exp x1 x2 = Ok K /\ has_shape K m n /\
    forall i j, (i < m)%nat -> (j < n)%nat ->
      item K i j = kernel_table 1 x1 x2 i j.
Proof.
  intros [H0 H1] [H2 H3].
  destruct (sq_exp_spec x1 x2 H1 H3) as (K & HK & Hsh & Hit).
  exists K. rewrite H0, H2 in *. auto.
Qed.

Lemma sq_exp2d_table x1 x2 m n d :
  has_shape x1 m d -> has_shape x2 n d ->
  exists K, sq_exp2d x1 x2 = Ok K /\ has_shape K m n /\
    forall i j, (i < m)%nat -> (j < n)%nat ->
      item K i j = kernel_table d x1 x2 i j.
Proof.
  intros [H0 H1] [H2 H3].
  destruct (sq_exp2d_spec x1 x2) as (K & HK & Hsh & Hit); [congruence|].
  exists K. rewrite H0, H1, H2 in *. split; [exact HK|]. split; [exact Hsh|].
  intros i j _ _. apply Hit.
Qed.

(** *** Properties of the kernels *)

(** C2. For point sets [x1] (m points) and [x2] (n points) of the same
    dimension d, the kernel returns an m by n array whose entry (i, j) is
    [exp (-0.5 * squared Euclidean distance of x1[i] and x2[j])]: the
    general-distance kernel [sq_exp2d] for every d, and the pairwise-difference
    kernel [sq_exp] for d = 1. *)
Theorem kernel_entries (x1 x2 : matrix) (m n d : nat) :
  has_shape x1 m d -> has_shape x2 n d ->
  (exists K, sq_exp2d x1 x2 = Ok K /\ has_shape K m n /\
     forall i j, (i < m)%nat -> (j < n)%nat ->
       item K i j = exp (-0.5 * sq_dist d x1 i x2 j)) /\
  (d = 1%nat ->
   exists K, sq_exp x1 x2 = Ok K /\ has_shape K m n /\
     forall i j, (i < m)%nat -> (j < n)%nat ->
       item K i j = exp (-0.5 * sq_dist d x1 i x2 j)).
Proof.
  intros [Hm1 Hd1] [Hn2 Hd2]. split.
  - destruct (sq_exp2d_spec x1 x2) as (K & HK & Hsh & Hit); [congruence|].
    exists K. rewrite Hm1, Hn2 in Hsh. repeat split; try apply Hsh; [exact HK|].
    intros i j _ _. rewrite Hit, Hd1. reflexivity.
  - intros ->.
    destruct (sq_exp_spec x1 x2 Hd1 Hd2) as (K & HK & Hsh & Hit).
    exists K. rewrite Hm1, Hn2 in Hsh, Hit. repeat split; try apply Hsh; [exact HK|].
    intros i j Hi Hj. apply Hit; assumption.
Qed.

Lemma kernel_entries_witness :
  (exists K, sq_exp2d x1_grid X_train_2d = Ok K /\ has_shape K 4 2 /\
     forall i j, (i < 4)%nat -> (j < 2)%nat ->
       item K i j = exp (-0.5 * sq_dist 2 x1_grid i X_train_2d j)) /\
  (exists K, sq_exp X_train_ex X_query_ex = Ok K /\ has_shape K 2 1 /\
     forall i j, (i < 2)%nat -> (j < 1)%nat ->
       item K i j = exp (-0.5 * sq_dist 1 X_train_ex i X_query_ex j)).
Proof.
  split.
  - apply (kernel_entries x1_grid X_train_2d 4 2 2); split; reflexivity.
  - apply (kernel_entries X_train_ex X_query_ex 2 1 1); try split; reflexivity.
Defined.

(** On points of dimension two the pairwise-difference kernel does not
    apply: the shapes (4, 2) and (2, 4) do not broadcast. *)
Lemma sq_exp_rejects_grid : sq_exp x1_grid x1_grid = Err ValueError.
Proof. reflexivity. Qed.

(** On one-dimensional inputs the two kernels return the same array. *)
Lemma kernels_equal_1d x1 x2 :
  shape1 x1 = 1%nat -> shape1 x2 = 1%nat ->
  exists A B, sq_exp x1 x2 = Ok A /\ sq_exp2d x1 x2 = Ok B /\
    has_shape A (shape0 x1) (shape0 x2) /\ has_shape B (shape0 x1) (shape0 x2) /\
    forall i j, (i < shape0 x1)%nat -> (j < shape0 x2)%nat ->
      item A i j = item B i j.
Proof.
  intros H1 H2.
  destruct (sq_exp_spec x1 x2 H1 H2) as (A & HA & HshA & HitA).
  destruct (sq_exp2d_spec x1 x2) as (B & HB & HshB & HitB); [congruence|].
  exists A, B. repeat split; try assumption; try apply HshA; try apply HshB.
  intros i j Hi Hj. rewrite HitA, HitB, H1 by assumption. reflexivity.
Qed.

(** C3. On matching one-dimensional inputs the pairwise-difference kernel
    [sq_exp] and the Euclidean-distance kernel [sq_exp2d] both return, and
    their results agree entrywise within 1e-10. *)
Theorem kernels_agree_1d (x1 x2 : matrix) :
  shape1 x1 = 1%nat -> shape1 x2 = 1%nat ->
  exists A B, sq_exp x1 x2 = Ok A /\ sq_exp2d x1 x2 = Ok B /\
    allclose 1e-10 A B.
Proof.
  intros H1 H2.
  destruct (kernels_equal_1d x1 x2 H1 H2) as (A & B & HA & HB & [a0 a1] & [b0 b1] & Heq).
  exists A, B. split; [exact HA|]. split; [exact HB|].
  split; [congruence|]. split; [congruence|].
  intros i j Hi Hj. rewrite a0 in Hi. rewrite a1 in Hj.
  rewrite (Heq i j Hi Hj).
  replace (item B i j - item B i j) with 0 by lra.
  rewrite Rabs_R0. lra.
Qed.

Lemma kernels_agree_1d_witness :
  exists A B, sq_exp X_train_ex X_train_ex = Ok A /\
    sq_exp2d X_train_ex X_train_ex = Ok B /\ allclose 1e-10 A B.
Proof.
  apply (kernels_agree_1d X_train_ex X_train_ex); reflexivity.
Defined.

(** With the exact exponential every entry of an array built by either
    kernel lies in (0, 1], and the entry for the points x and x' is 1
    exactly when x = x'. *)
Lemma kernel_entry_unit_interval (x1 x2 K : matrix) :
  (sq_exp2d x1 x2 = Ok K \/ sq_exp x1 x2 = Ok K) ->
  (forall i j, 0 < item K i j <= 1) /\
  (sq_exp2d x1 x2 = Ok K ->
   forall i j, item K i j = 1 <-> same_point (shape1 x1) x1 i x2 j) /\
  (sq_exp x1 x2 = Ok K -> shape1 x1 = 1%nat -> shape1 x2 = 1%nat ->
   forall i j, (i < shape0 x1)%nat -> (j < shape0 x2)%nat ->
     (item K i j = 1 <-> same_point 1 x1 i x2 j)).
Proof.
  intros HK. split; [|split].
  - intros i j. destruct HK as [HK|HK].
    + unfold sq_exp2d, cdist in HK.
      destruct (Nat.eqb_spec (shape1 x1) (shape1 x2)) as [Hd|]; [|discriminate].
      destruct (sq_exp2d_spec x1 x2 Hd) as (K' & HK' & _ & Hit).
      unfold sq_exp2d, cdist in HK'. rewrite Hd, Nat.eqb_refl in HK'.
      rewrite Hd, HK' in HK. injection HK as <-.
      rewrite Hit. apply k_se_range.
    + destruct (sq_exp_items x1 x2 K HK i j) as [t ->].
      apply exp_neg_half_range, pow2_ge_0.
  - intros H2 i j.
    assert (Hd : shape1 x1 = shape1 x2).
    { unfold sq_exp2d, cdist in H2.
      destruct (Nat.eqb_spec (shape1 x1) (shape1 x2)); [assumption|discriminate]. }
    destruct (sq_exp2d_spec x1 x2 Hd) as (K' & HK' & _ & Hit).
    rewrite H2 in HK'. injection HK' as <-.
    rewrite Hit. apply k_se_one_iff.
  - intros H1 Hs1 Hs2 i j Hi Hj.
    destruct (sq_exp_spec x1 x2 Hs1 Hs2) as (K' & HK' & _ & Hit).
    rewrite H1 in HK'. injection HK' as <-.
    rewrite Hit by assumption. apply k_se_one_iff.
Qed.

(** *** The kernels with a rounded exponential *)

Lemma sq_exp_with_exact x1 x2 : sq_exp_with exp x1 x2 = sq_exp x1 x2.
Proof. reflexivity. Qed.

Lemma sq_exp2d_with_exact x1 x2 : sq_exp2d_with exp x1 x2 = sq_exp2d x1 x2.
Proof. reflexivity. Qed.

Lemma exp_routine_exact : exp_routine exp.
Proof.
  split; [apply exp_0|]. split; [|split].
  - intros t Ht. split; [left; apply exp_pos|].
    destruct (Req_dec_T t 0) as [->|Hne]; [rewrite exp_0; lra|].
    left. rewrite <- exp_0. apply exp_increasing. lra.
  - intros t _ _. apply exp_pos.
  - intros t Ht. rewrite <- exp_0. apply exp_increasing. lra.
Qed.

Lemma exp64_far t : t <= -746 -> exp64 t = 0.
Proof.
  intros Ht. unfold exp64. destruct (Rle_dec t (-746)); [reflexivity|lra].
Qed.

Lemma exp64_near t : -746 < t -> Rabs t <= 1e-17 -> exp64 t = 1.
Proof.
  intros Hlow Ht. unfold exp64.
  destruct (Rle_dec t (-746)); [lra|].
  destruct (Rle_dec (Rabs t) 1e-17); [reflexivity|contradiction].
Qed.

Lemma exp_routine_exp64 : exp_routine exp64.
Proof.
  split; [|split; [|split]].
  - apply exp64_near; [lra|]. rewrite Rabs_R0. lra.
  - intros t Ht. unfold exp64.
    destruct (Rle_dec t (-746)); [lra|].
    destruct (Rle_dec (Rabs t) 1e-17); [lra|].
    apply (proj1 (proj2 exp_routine_exact)). exact Ht.
  - intros t Hlow _. unfold exp64.
    destruct (Rle_dec t (-746)); [lra|].
    destruct (Rle_dec (Rabs t) 1e-17); [lra|]. apply exp_pos.
  - intros t Ht. unfold exp64.
    destruct (Rle_dec t (-746)); [lra|].
    destruct (Rle_dec (Rabs t) 1e-17) as [Habs|_].
    + exfalso. rewrite Rabs_left in Habs by lra. lra.
    + rewrite <- exp_0. apply exp_increasing. lra.
Qed.

Lemma sq_exp2d_with_spec fexp x1 x2 :
  shape1 x1 = shape1 x2 ->
  exists K, sq_exp2d_with fexp x1 x2 = Ok K /\
    has_shape K (shape0 x1) (shape0 x2) /\
    forall i j, item K i j = fexp (-0.5 * sq_dist (shape1 x1) x1 i x2 j).
Proof.
  intros Hd. unfold sq_exp2d_with, cdist.
  rewrite Hd, Nat.eqb_refl. simpl.
  eexists. split; [reflexivity|]. split; [split; reflexivity|].
  intros i j. simpl. unfold sq_dist. rewrite <- Hd.
  f_equal. f_equal.
  rewrite Rmult_1_r. apply sqrt_sqrt.
  apply rsum_nonneg. intros k _. apply pow2_ge_0.
Qed.

Lemma sq_exp_with_spec fexp x1 x2 :
  shape1 x1 = 1%nat -> shape1 x2 = 1%nat ->
  exists K, sq_exp_with fexp x1 x2 = Ok K /\
    has_shape K (shape0 x1) (shape0 x2) /\
    forall i j, (i < shape0 x1)%nat -> (j < shape0 x2)%nat ->
      item K i j = fexp (-0.5 * sq_dist 1 x1 i x2 j).
Proof.
  intros H1 H2. unfold sq_exp_with, subtract, broadcast2. simpl.
  rewrite H1, H2, broadcast_dim_l, broadcast_dim_r. simpl.
  eexists. split; [reflexivity|]. split; [split; reflexivity|].
  intros i j Hi Hj. simpl.
  rewrite (bidx_lt _ _ Hi), (bidx_lt _ _ Hj).
  unfold sq_dist, bidx. simpl. f_equal. lra.
Qed.

(** Every entry that a kernel produces, whatever the shapes that were
    broadcast, is the exponential routine at a non-positive argument. *)
Lemma kernel_with_items fexp x1 x2 K :
  sq_exp2d_with fexp x1 x2 = Ok K \/ sq_exp_with fexp x1 x2 = Ok K ->
  forall i j, exists t, t <= 0 /\ item K i j = fexp t.
Proof.
  intros [H|H] i j.
  - unfold sq_exp2d_with in H.
    destruct (cdist x1 x2) as [D|]; [|discriminate].
    simpl in H. injection H as <-. simpl. eexists. split; [|reflexivity].
    pose proof (pow2_ge_0 (item D i j)) as Hsq. simpl in Hsq. lra.
  - unfold sq_exp_with, subtract, broadcast2 in H.
    destruct (broadcast_dim (shape0 x1) (shape0 (transpose x2))); [|discriminate].
    destruct (broadcast_dim (shape1 x1) (shape1 (transpose x2))); [|discriminate].
    simpl in H. injection H as <-. simpl. eexists. split; [|reflexivity].
    match goal with |- -0.5 * (?a * (?a * 1)) <= 0 =>
      pose proof (pow2_ge_0 a) as Hsq; simpl in Hsq; lra end.
Qed.

Lemma kernel_value_facts fexp s :
  exp_routine fexp -> 0 <= s ->
  (s = 0 -> fexp (-0.5 * s) = 1) /\
  (s <= 1400 -> 0 < fexp (-0.5 * s)) /\
  (2e-15 <= s -> fexp (-0.5 * s) < 1).
Proof.
  intros (H0 & _ & Hpos & Hlt) Hs. split; [|split].
  - intros ->. replace (-0.5 * 0) with 0 by lra. exact H0.
  - intros Hle. apply Hpos; lra.
  - intros Hge. apply Hlt. lra.
Qed.

(** The claim C10 fails on the binary64 exponential: the kernel entry of the
    first and the last query point of the one-dimensional cell, 40 apart, is
    exactly 0, and the entry of two distinct points 1e-9 apart is exactly
    1, through either kernel. *)
Lemma kernel_entry_not_in_half_open_interval :
  exp_routine exp64 /\
  (exists K, sq_exp_with exp64 X_far_ex X_far_ex = Ok K /\ item K 0 1 = 0) /\
  (exists K, sq_exp2d_with exp64 X_far_ex X_far_ex = Ok K /\ item K 0 1 = 0) /\
  ~ same_point 1 X_near_ex 0 X_near_ex 1 /\
  (exists K, sq_exp_with exp64 X_near_ex X_near_ex = Ok K /\ item K 0 1 = 1) /\
  (exists K, sq_exp2d_with exp64 X_near_ex X_near_ex = Ok K /\ item K 0 1 = 1).
Proof.
  assert (Hfar : sq_dist 1 X_far_ex 0 X_far_ex 1 = 1600).
  { unfold sq_dist. simpl. lra. }
  assert (Hnear : sq_dist 1 X_near_ex 0 X_near_ex 1 = 1e-18).
  { unfold sq_dist. simpl. lra. }
  split; [exact exp_routine_exp64|]. split; [|split; [|split; [|split]]].
  - destruct (sq_exp_with_spec exp64 X_far_ex X_far_ex eq_refl eq_refl)
      as (K & HK & _ & Hit).
    exists K. split; [exact HK|]. rewrite Hit by (simpl; lia).
    rewrite Hfar. apply exp64_far. lra.
  - destruct (sq_exp2d_with_spec exp64 X_far_ex X_far_ex eq_refl)
      as (K & HK & _ & Hit).
    exists K. split; [exact HK|]. rewrite Hit.
    change (shape1 X_far_ex) with 1%nat. rewrite Hfar. apply exp64_far. lra.
  - intros H. specialize (H O Nat.lt_0_1). simpl in H. lra.
  - destruct (sq_exp_with_spec exp64 X_near_ex X_near_ex eq_refl eq_refl)
      as (K & HK & _ & Hit).
    exists K. split; [exact HK|]. rewrite Hit by (simpl; lia).
    rewrite Hnear. apply exp64_near; [lra|]. rewrite Rabs_left by lra. lra.
  - destruct (sq_exp2d_with_spec exp64 X_near_ex X_near_ex eq_refl)
      as (K & HK & _ & Hit).
    exists K. split; [exact HK|]. rewrite Hit.
    change (shape1 X_near_ex) with 1%nat.
    rewrite Hnear. apply exp64_near; [lra|]. rewrite Rabs_left by lra. lra.
Qed.

(** C10, as the code has it.  Every entry of an array built by either
    kernel lies in [0, 1], whatever exponential routine computes it; the
    entry for the points x and x' is 1 when x = x', is positive when their
    squared distance is at most 1400, and is below 1 when their squared
    distance is at least 2e-15. *)
Theorem kernel_entry_closed_interval (fexp : R -> R) (x1 x2 : matrix)
        (m n d : nat) :
  exp_routine fexp -> has_shape x1 m d -> has_shape x2 n d ->
  (forall K, sq_exp2d_with fexp x1 x2 = Ok K \/ sq_exp_with fexp x1 x2 = Ok K ->
     forall i j, 0 <= item K i j <= 1) /\
  (exists K, sq_exp2d_with fexp x1 x2 = Ok K /\ has_shape K m n /\
     forall i j, (i < m)%nat -> (j < n)%nat ->
       (same_point d x1 i x2 j -> item K i j = 1) /\
       (sq_dist d x1 i x2 j <= 1400 -> 0 < item K i j) /\
       (2e-15 <= sq_dist d x1 i x2 j -> item K i j < 1)) /\
  (d = 1%nat ->
   exists K, sq_exp_with fexp x1 x2 = Ok K /\ has_shape K m n /\
     forall i j, (i < m)%nat -> (j < n)%nat ->
       (same_point 1 x1 i x2 j -> item K i j = 1) /\
       (sq_dist 1 x1 i x2 j <= 1400 -> 0 < item K i j) /\
       (2e-15 <= sq_dist 1 x1 i x2 j -> item K i j < 1)).
Proof.
  intros Hexp [Hm1 Hd1] [Hn2 Hd2]. split; [|split].
  - intros K HK i j. destruct (kernel_with_items fexp x1 x2 K HK i j) as (t & Ht & ->).
    apply (proj1 (proj2 Hexp)). exact Ht.
  - destruct (sq_exp2d_with_spec fexp x1 x2) as (K & HK & Hsh & Hit); [congruence|].
    exists K. rewrite Hm1, Hn2 in Hsh. split; [exact HK|]. split; [exact Hsh|].
    intros i j _ _. rewrite Hit, Hd1.
    destruct (kernel_value_facts fexp (sq_dist d x1 i x2 j) Hexp
                (sq_dist_nonneg d x1 i x2 j)) as (Hone & Hpos & Hlt).
    split; [|split; assumption].
    intros Hsame. apply Hone. apply sq_dist_zero_iff. exact Hsame.
  - intros ->.
    destruct (sq_exp_with_spec fexp x1 x2 Hd1 Hd2) as (K & HK & Hsh & Hit).
    exists K. rewrite Hm1, Hn2 in Hsh, Hit. split; [exact HK|]. split; [exact Hsh|].
    intros i j Hi Hj. rewrite (Hit i j Hi Hj).
    destruct (kernel_value_facts fexp (sq_dist 1 x1 i x2 j) Hexp
                (sq_dist_nonneg 1 x1 i x2 j)) as (Hone & Hpos & Hlt).
    split; [|split; assumption].
    intros Hsame. apply Hone. apply sq_dist_zero_iff. exact Hsame.
Qed.

Lemma kernel_entry_closed_interval_witness :
  (forall K, sq_exp2d_with exp64 X_far_ex X_far_ex = Ok K \/
             sq_exp_with exp64 X_far_ex X_far_ex = Ok K ->
     forall i j, 0 <= item K i j <= 1) /\
  (exists K, sq_exp2d_with exp64 X_far_ex X_far_ex = Ok K /\ has_shape K 2 2 /\
     forall i j, (i < 2)%nat -> (j < 2)%nat ->
       (same_point 1 X_far_ex i X_far_ex j -> item K i j = 1) /\
       (sq_dist 1 X_far_ex i X_far_ex j <= 1400 -> 0 < item K i j) /\
       (2e-15 <= sq_dist 1 X_far_ex i X_far_ex j -> item K i j < 1)) /\
  (1%nat = 1%nat ->
   exists K, sq_exp_with exp64 X_far_ex X_far_ex = Ok K /\ has_shape K 2 2 /\
     forall i j, (i < 2)%nat -> (j < 2)%nat ->
       (same_point 1 X_far_ex i X_far_ex j -> item K i j = 1) /\
       (sq_dist 1 X_far_ex i X_far_ex j <= 1400 -> 0 < item K i j) /\
       (2e-15 <= sq_dist 1 X_far_ex i X_far_ex j -> item K i j < 1)).
Proof.
  apply (kernel_entry_closed_interval exp64 X_far_ex X_far_ex 2 2 1
           exp_routine_exp64); split; reflexivity.
Defined.

(** ** Quadratic forms and positive semi-definiteness *)

Lemma quad_ext n A B c :
  (forall i j, (i < n)%nat -> (j < n)%nat -> A i j = B i j) ->
  quad n A c = quad n B c.
Proof.
  intros H. apply rsum_ext. intros i Hi. apply rsum_ext. intros j Hj.
  rewrite H by assumption. reflexivity.
Qed.

Lemma quad_plus n A B c :
  quad n (fun i j => A i j + B i j) c = quad n A c + quad n B c.
Proof.
  unfold quad. rewrite <- rsum_plus. apply rsum_ext. intros i _.
  rewrite <- rsum_plus. apply rsum_ext. intros j _. lra.
Qed.

Lemma quad_scal n a A c :
  quad n (fun i j => a * A i j) c = a * quad n A c.
Proof.
  unfold quad. rewrite <- rsum_scal. apply rsum_ext. intros i _.
  rewrite <- rsum_scal. apply rsum_ext. intros j _. lra.
Qed.

Lemma quad_rank1 n u A c :
  quad n (fun i j => u i * u j * A i j) c = quad n A (fun i => c i * u i).
Proof.
  apply rsum_ext. intros i _. apply rsum_ext. intros j _. lra.
Qed.

Lemma quad_ones n c : quad n (fun _ _ => 1) c = rsum n c * rsum n c.
Proof.
  rewrite rsum_mult. apply rsum_ext. intros i _. apply rsum_ext. intros j _. lra.
Qed.

Lemma psd_ones n : pos_semidef n (fun _ _ => 1).
Proof. intros c. rewrite quad_ones. nra. Qed.

Lemma psd_ext n A B :
  (forall i j, (i < n)%nat -> (j < n)%nat -> A i j = B i j) ->
  pos_semidef n A -> pos_semidef n B.
Proof. intros H HA c. rewrite <- (quad_ext n A B c H). apply HA. Qed.

Lemma psd_plus n A B :
  pos_semidef n A -> pos_semidef n B ->
  pos_semidef n (fun i j => A i j + B i j).
Proof.
  intros HA HB c. rewrite quad_plus.
  pose proof (HA c). pose proof (HB c). lra.
Qed.

Lemma psd_scal n a A :
  0 <= a -> pos_semidef n A -> pos_semidef n (fun i j => a * A i j).
Proof.
  intros Ha HA c. rewrite quad_scal. apply Rmult_le_pos; [assumption|apply HA].
Qed.

Lemma psd_rank1 n u A :
  pos_semidef n A -> pos_semidef n (fun i j => u i * u j * A i j).
Proof. intros HA c. rewrite quad_rank1. apply HA. Qed.

(** *** Limits of finite sums *)

Lemma Un_cv_const a : Un_cv (fun _ => a) a.
Proof.
  intros eps Heps. exists O. intros n _.
  unfold Rdist. replace (a - a) with 0 by lra. rewrite Rabs_R0. exact Heps.
Qed.

Lemma Un_cv_rsum n (a : nat -> nat -> R) (l : nat -> R) :
  (forall i, (i < n)%nat -> Un_cv (fun M => a M i) (l i)) ->
  Un_cv (fun M => rsum n (a M)) (rsum n l).
Proof.
  induction n as [|n IH]; intros H; simpl.
  - apply Un_cv_const.
  - apply CV_plus; [apply IH; intros; apply H; lia | apply H; lia].
Qed.

Lemma Un_cv_nonneg U l :
  Un_cv U l -> (forall n, 0 <= U n) -> 0 <= l.
Proof.
  intros Hcv Hpos.
  destruct (Rle_lt_dec 0 l) as [Hl|Hl]; [assumption|exfalso].
  destruct (Hcv (- l)) as [N HN]; [lra|].
  specialize (HN N (Nat.le_refl N)). specialize (Hpos N).
  unfold Rdist in HN. rewrite Rabs_right in HN; lra.
Qed.

Lemma psd_limit n (B : nat -> nat -> nat -> R) A :
  (forall M, pos_semidef n (B M)) ->
  (forall i j, (i < n)%nat -> (j < n)%nat -> Un_cv (fun M => B M i j) (A i j)) ->
  pos_semidef n A.
Proof.
  intros HB Hcv c.
  apply (Un_cv_nonneg (fun M => quad n (B M) c)); [|intros M; apply HB].
  unfold quad.
  apply (Un_cv_rsum n (fun M i => rsum n (fun j => c i * c j * B M i j))).
  intros i Hi.
  apply (Un_cv_rsum n (fun M j => c i * c j * B M i j)).
  intros j Hj.
  apply (CV_mult (fun _ => c i * c j) (fun M => B M i j));
    [apply Un_cv_const | apply Hcv; assumption].
Qed.

(** *** The exponential series and the Gaussian factor *)

Lemma exp_series_cv x :
  Un_cv (fun M => sum_f_R0 (fun k => / INR (fact k) * x ^ k) M) (exp x).
Proof.
  unfold exp. destruct (exist_exp x) as [l Hl]. simpl. exact Hl.
Qed.

Lemma psd_exp_term n u A k :
  pos_semidef n A ->
  pos_semidef n (fun i j => A i j * (/ INR (fact k) * (u i * u j) ^ k)).
Proof.
  intros HA.
  apply (psd_ext n (fun i j => / INR (fact k) * (u i ^ k * u j ^ k * A i j))).
  - intros i j _ _. rewrite Rpow_mult_distr. lra.
  - apply psd_scal.
    + left. apply Rinv_0_lt_compat, INR_fact_lt_0.
    + apply (psd_rank1 n (fun i => u i ^ k)). exact HA.
Qed.

Lemma psd_exp_partial n u A M :
  pos_semidef n A ->
  pos_semidef n (fun i j =>
    A i j * sum_f_R0 (fun k => / INR (fact k) * (u i * u j) ^ k) M).
Proof.
  intros HA. induction M as [|M IH].
  - simpl sum_f_R0. apply (psd_exp_term n u A O HA).
  - apply (psd_ext n (fun i j =>
        A i j * sum_f_R0 (fun k => / INR (fact k) * (u i * u j) ^ k) M +
        A i j * (/ INR (fact (S M)) * (u i * u j) ^ (S M)))).
    + intros i j _ _. rewrite tech5. lra.
    + apply psd_plus; [exact IH | apply psd_exp_term; exact HA].
Qed.

Lemma psd_exp_product n u A :
  pos_semidef n A -> pos_semidef n (fun i j => A i j * exp (u i * u j)).
Proof.
  intros HA.
  apply (psd_limit n (fun M i j =>
      A i j * sum_f_R0 (fun k => / INR (fact k) * (u i * u j) ^ k) M)).
  - intros M. apply psd_exp_partial. exact HA.
  - intros i j _ _.
    apply (CV_mult (fun _ => A i j)); [apply Un_cv_const | apply exp_series_cv].
Qed.

Lemma psd_gauss_factor n u A :
  pos_semidef n A ->
  pos_semidef n (fun i j => A i j * exp (-0.5 * (u i - u j) ^ 2)).
Proof.
  intros HA.
  apply (psd_ext n (fun i j =>
      exp (-0.5 * u i ^ 2) * exp (-0.5 * u j ^ 2) * (A i j * exp (u i * u j)))).
  - intros i j _ _.
    replace (-0.5 * (u i - u j) ^ 2)
      with (-0.5 * u i ^ 2 + (-0.5 * u j ^ 2 + u i * u j)) by (simpl; lra).
    rewrite !exp_plus. lra.
  - apply (psd_rank1 n (fun i => exp (-0.5 * u i ^ 2))).
    apply psd_exp_product. exact HA.
Qed.

(** The squared-exponential kernel of any point set is positive
    semi-definite. *)
Lemma k_se_psd d n x : pos_semidef n (fun i j => k_se d x i x j).
Proof.
  induction d as [|d IH].
  - apply (psd_ext n (fun _ _ => 1)); [|apply psd_ones].
    intros i j _ _. unfold k_se, sq_dist. simpl.
    replace (-0.5 * 0) with 0 by lra. symmetry. apply exp_0.
  - apply (psd_ext n (fun i j =>
        k_se d x i x j * exp (-0.5 * (item x i d - item x j d) ^ 2))).
    + intros i j _ _. unfold k_se, sq_dist. simpl rsum.
      rewrite <- exp_plus. f_equal. lra.
    + apply (psd_gauss_factor n (fun i => item x i d)). exact IH.
Qed.

(** *** Jitter makes a positive semi-definite array positive definite *)

Lemma quad_delta n c : quad n delta c = rsum n (fun i => c i * c i).
Proof.
  apply rsum_ext. intros i Hi.
  rewrite (rsum_ext n _ (fun j => delta i j * (c i * c j))) by (intros; lra).
  apply (rsum_delta_l n i (fun j => c i * c j) Hi).
Qed.

Lemma rsum_squares_pos n c :
  (exists i, (i < n)%nat /\ c i <> 0) -> 0 < rsum n (fun i => c i * c i).
Proof.
  intros (i & Hi & Hne).
  assert (Hpos : forall k, (k < n)%nat -> 0 <= c k * c k) by (intros; nra).
  destruct (Rle_lt_dec (rsum n (fun i => c i * c i)) 0) as [Hle|Hlt]; [|assumption].
  pose proof (rsum_nonneg n _ Hpos) as Hge.
  assert (Hz : rsum n (fun i => c i * c i) = 0) by lra.
  pose proof (rsum_zero_terms n _ Hpos Hz i Hi) as Hi0. simpl in Hi0.
  exfalso. apply Hne. nra.
Qed.

Lemma jitter_pos_def n A eps :
  pos_semidef n A -> 0 < eps ->
  pos_def n (fun i j => A i j + eps * delta i j).
Proof.
  intros HA Heps c Hc.
  rewrite quad_plus, quad_scal, quad_delta.
  pose proof (HA c). pose proof (rsum_squares_pos n c Hc). nra.
Qed.

Lemma pos_def_ext n A B :
  (forall i j, (i < n)%nat -> (j < n)%nat -> A i j = B i j) ->
  pos_def n A -> pos_def n B.
Proof.
  intros H HA c Hc. rewrite <- (quad_ext n A B c H). apply HA. exact Hc.
Qed.

Lemma jittered_kernel K d x n :
  has_shape K n n ->
  (forall i j, (i < n)%nat -> (j < n)%nat -> item K i j = kernel_table d x x i j) ->
  exists Keps, add K (jitter n) = Ok Keps /\ has_shape Keps n n /\
    (forall i j, (i < n)%nat -> (j < n)%nat ->
       item Keps i j = kernel_table d x x i j + 1e-6 * delta i j) /\
    symmetric n (item Keps) /\ pos_def n (item Keps).
Proof.
  intros [H0 H1] Hit.
  unfold add, broadcast2, jitter. simpl. rewrite H0, H1, broadcast_dim_refl. simpl.
  eexists. split; [reflexivity|]. split; [split; reflexivity|].
  assert (Hent : forall i j, (i < n)%nat -> (j < n)%nat ->
    item K (bidx n i) (bidx n j) +
      1e-6 * (if bidx n i =? bidx n j then 1 else 0) =
    kernel_table d x x i j + 1e-6 * delta i j).
  { intros i j Hi Hj. rewrite !bidx_lt by assumption.
    rewrite Hit by assumption. reflexivity. }
  split; [exact Hent|]. split.
  - intros i j Hi Hj. simpl. rewrite !Hent by assumption.
    unfold kernel_table, delta. rewrite k_se_sym, (Nat.eqb_sym i j). reflexivity.
  - apply (pos_def_ext n (fun i j => kernel_table d x x i j + 1e-6 * delta i j)).
    + intros i j Hi Hj. simpl. rewrite Hent by assumption. reflexivity.
    + apply jitter_pos_def; [apply k_se_psd | lra].
Qed.

(** ** The reference Cholesky factorisation meets the library contract *)

Section Elimination.

Variable n : nat.
Variable A : nat -> nat -> R.
Hypothesis A_sym : symmetric (S n) A.
Hypothesis A_pd : pos_def (S n) A.

Lemma pivot_pos : 0 < A O O.
Proof.
  assert (H : quad (S n) A (delta O) = A O O).
  { unfold quad.
    rewrite (rsum_ext (S n) _ (fun i => delta O i * A i O)).
    - apply (rsum_delta_l (S n) O (fun i => A i O)). lia.
    - intros i Hi.
      rewrite (rsum_ext (S n) _ (fun j => delta O j * (delta O i * A i j)))
        by (intros; lra).
      apply (rsum_delta_l (S n) O (fun j => delta O i * A i j)). lia. }
  rewrite <- H. apply A_pd. exists O. split; [lia|].
  unfold delta. simpl. lra.
Qed.

Lemma rest_sym : symmetric n (eliminate A).
Proof.
  intros i j Hi Hj. unfold eliminate.
  rewrite (A_sym (S i) (S j)) by lia. lra.
Qed.

Lemma rest_quad y :
  quad n (eliminate A) y =
  quad (S n) A (fun i => match i with
                         | O => - rsum n (fun j => A (S j) O * y j) / A O O
                         | S i' => y i'
                         end).
Proof.
  pose proof pivot_pos as Ha.
  set (s := rsum n (fun j => A (S j) O * y j)).
  unfold quad at 2. rewrite rsum_shift.
  rewrite (rsum_shift n (fun j => _ * _ * A O j)).
  rewrite (rsum_ext n (fun k => - s / A O O * y k * A O (S k))
                      (fun k => - s / A O O * (A (S k) O * y k))).
  2:{ intros k Hk. rewrite (A_sym O (S k)) by lia. lra. }
  rewrite rsum_scal. fold s.
  rewrite (rsum_ext n
    (fun k => rsum (S n) (fun j => y k * match j with
                                          | O => - s / A O O
                                          | S i' => y i'
                                          end * A (S k) j))
    (fun k => - s / A O O * (A (S k) O * y k) +
              rsum n (fun j => y k * y j * A (S k) (S j)))).
  2:{ intros k Hk. rewrite rsum_shift. lra. }
  rewrite rsum_plus, rsum_scal. fold s.
  unfold quad, eliminate.
  rewrite (rsum_ext n
    (fun i => rsum n (fun j => y i * y j *
                (A (S i) (S j) - A (S i) O * A (S j) O / A O O)))
    (fun i => rsum n (fun j => y i * y j * A (S i) (S j)) -
              (A (S i) O * y i) * (s / A O O))).
  2:{ intros i Hi.
      rewrite (rsum_ext n _
        (fun j => y i * y j * A (S i) (S j) -
                  (A (S i) O * y i / A O O) * (A (S j) O * y j))).
      - rewrite rsum_minus, rsum_scal. fold s. field. lra.
      - intros j Hj. field. lra. }
  rewrite rsum_minus, rsum_scal_r. fold s. field. lra.
Qed.

Lemma rest_pd : pos_def n (eliminate A).
Proof.
  intros y (i & Hi & Hne). rewrite rest_quad.
  apply A_pd. exists (S i). split; [lia|exact Hne].
Qed.

Lemma chol_step L' :
  is_cholesky_of n (eliminate A) L' ->
  is_cholesky_of (S n) A
    (fun i j => match i, j with
                | O, O => sqrt (A O O)
                | O, S _ => 0
                | S i', O => A (S i') O / sqrt (A O O)
                | S i', S j' => L' i' j'
                end).
Proof.
  intros [Hlow Hprod].
  pose proof pivot_pos as Ha.
  assert (Hl : 0 < sqrt (A O O)) by (apply sqrt_lt_R0; exact Ha).
  assert (Hll : sqrt (A O O) * sqrt (A O O) = A O O) by (apply sqrt_sqrt; lra).
  split.
  - intros i j Hij Hj. destruct i as [|i'], j as [|j']; try lia; [reflexivity|].
    apply Hlow; lia.
  - intros i j Hi Hj. rewrite rsum_shift.
    destruct i as [|i'], j as [|j'].
    + rewrite (rsum_ext n _ (fun _ => 0)) by (intros; lra).
      rewrite rsum_zero. lra.
    + rewrite (rsum_ext n _ (fun _ => 0)) by (intros; lra).
      rewrite rsum_zero, (A_sym O (S j')) by lia. field. lra.
    + rewrite (rsum_ext n _ (fun _ => 0)) by (intros; lra).
      rewrite rsum_zero. field. lra.
    + rewrite (Hprod i' j') by lia. unfold eliminate.
      replace (A (S i') O / sqrt (A O O) * (A (S j') O / sqrt (A O O)))
        with (A (S i') O * A (S j') O / (sqrt (A O O) * sqrt (A O O)))
        by (field; lra).
      rewrite Hll. lra.
Qed.

End Elimination.

Lemma chol_correct n : forall A,
  symmetric n A -> pos_def n A ->
  exists L, chol n A = Ok L /\ is_cholesky_of n A L.
Proof.
  induction n as [|n IH]; intros A Hsym Hpd.
  - exists (fun _ _ => 0). split; [reflexivity|].
    split; [intros i j _ Hj; lia | intros i j Hi; lia].
  - pose proof (pivot_pos n A Hpd) as Ha.
    destruct (IH _ (rest_sym n A Hsym) (rest_pd n A Hsym Hpd)) as (L' & HL' & Hfac).
    simpl. destruct (Rlt_dec 0 (A O O)) as [_|Hn]; [|contradiction].
    rewrite HL'. simpl. eexists. split; [reflexivity|].
    apply (chol_step n A Hsym Hpd L' Hfac).
Qed.

Lemma cholesky_ref_contract : cholesky_contract cholesky_ref.
Proof.
  intros A n [H0 H1] Hsym Hpd.
  destruct (chol_correct n (item A) Hsym Hpd) as (L & HL & Hfac).
  exists (mkmat n n L). unfold cholesky_ref.
  rewrite H0, H1, Nat.eqb_refl, HL. simpl.
  split; [reflexivity|]. split; [split; reflexivity|exact Hfac].
Qed.

(** ** The cofactor inverse on the kernel of two distinct points *)

Lemma inv_cofactor_2 K t :
  has_shape K 2 2 ->
  item K 0 0 = 1 -> item K 1 1 = 1 -> item K 0 1 = t -> item K 1 0 = t ->
  0 < t < 1 ->
  exists Ki, inv_cofactor K = Ok Ki /\ is_inverse_of K Ki.
Proof.
  intros [H0 H1] H00 H11 H01 H10 Ht.
  destruct K as [r c f]. simpl in *. subst r c.
  unfold inv_cofactor. simpl. rewrite H00, H11, H01, H10.
  destruct (Req_dec_T (1 * 1 - t * t) 0) as [Hz|Hnz]; [exfalso; nra|].
  eexists. split; [reflexivity|].
  split; [split; reflexivity|]. split; [split; reflexivity|].
  simpl. intros i j Hi Hj. unfold delta.
  destruct i as [|[|i]], j as [|[|j]]; try lia; simpl;
    rewrite ?H00, ?H11, ?H01, ?H10; field; nra.
Qed.

Lemma cofactor_inverts_table K d x :
  has_shape K 2 2 ->
  (forall i j, (i < 2)%nat -> (j < 2)%nat -> item K i j = kernel_table d x x i j) ->
  ~ same_point d x 0 x 1 ->
  exists Ki, inv_cofactor K = Ok Ki /\ is_inverse_of K Ki.
Proof.
  intros Hsh Hit Hne.
  apply (inv_cofactor_2 K (k_se d x 0 x 1) Hsh).
  - rewrite Hit by lia. apply k_se_diag.
  - rewrite Hit by lia. apply k_se_diag.
  - rewrite Hit by lia. reflexivity.
  - rewrite Hit by lia. apply k_se_sym.
  - pose proof (k_se_range d x 0 x 1) as [Hpos Hle]. split; [exact Hpos|].
    destruct Hle as [Hlt|Heq]; [exact Hlt|].
    exfalso. apply Hne. apply k_se_one_iff. exact Heq.
Qed.

Lemma cofactor_inverts_1d x :
  has_shape x 2 1 -> ~ same_point 1 x 0 x 1 ->
  exists Ki, inverts inv_cofactor (sq_exp x x) Ki.
Proof.
  intros Hx Hne.
  destruct (sq_exp_table x x 2 2 Hx Hx) as (K & HK & Hsh & Hit).
  destruct (cofactor_inverts_table K 1 x Hsh Hit Hne) as (Ki & Hinv & His).
  exists Ki, K. auto.
Qed.

Lemma cofactor_inverts_2d x d :
  has_shape x 2 d -> ~ same_point d x 0 x 1 ->
  exists Ki, inverts inv_cofactor (sq_exp2d x x) Ki.
Proof.
  intros Hx Hne.
  destruct (sq_exp2d_table x x 2 2 d Hx Hx) as (K & HK & Hsh & Hit).
  destruct (cofactor_inverts_table K d x Hsh Hit Hne) as (Ki & Hinv & His).
  exists Ki, K. auto.
Qed.

Lemma X_train_ex_distinct : ~ same_point 1 X_train_ex 0 X_train_ex 1.
Proof.
  intros H. specialize (H O (Nat.lt_0_1)). simpl in H. lra.
Qed.

Lemma X_train_ex_shape : has_shape X_train_ex 2 1.
Proof. split; reflexivity. Qed.

Lemma X_train_2d_distinct : ~ same_point 2 X_train_2d 0 X_train_2d 1.
Proof.
  intros H. specialize (H O (Nat.lt_0_2)). simpl in H. lra.
Qed.

Lemma X_train_2d_shape : has_shape X_train_2d 2 2.
Proof. split; reflexivity. Qed.

(** ** Running the posterior cells *)

Section PosteriorRun.

Variable inv : matrix -> result matrix.

Lemma cond_mean_run K_samp K_s f Ki m n c :
  has_shape K_s m n -> inv K_samp = Ok Ki -> has_shape Ki m m ->
  has_shape f m c ->
  exists mu, cond_mean inv K_samp K_s f = Ok mu /\ has_shape mu n c /\
    forall q j, item mu q j =
      rsum m (fun l => rsum m (fun k => item K_s k q * item Ki k l) * item f l j).
Proof.
  intros Hs Hinv Hki Hf. unfold cond_mean. rewrite Hinv. simpl.
  destruct K_s as [r0 c0 ks], Ki as [r1 c1 ki], f as [r2 c2 ff].
  unfold has_shape in *. simpl in *.
  destruct Hs, Hki, Hf. subst.
  unfold matmul. simpl. rewrite Nat.eqb_refl. simpl. rewrite Nat.eqb_refl.
  eexists. split; [reflexivity|]. simpl. repeat split.
Qed.

Lemma cond_mean_flat_run K_samp K_s f Ki m n :
  has_shape K_s m n -> inv K_samp = Ok Ki -> has_shape Ki m m ->
  len f = m ->
  exists mu, cond_mean_flat inv K_samp K_s f = Ok mu /\ len mu = n /\
    forall q, vitem mu q =
      rsum m (fun l => rsum m (fun k => item K_s k q * item Ki k l) * vitem f l).
Proof.
  intros Hs Hinv Hki Hf. unfold cond_mean_flat. rewrite Hinv. simpl.
  destruct K_s as [r0 c0 ks], Ki as [r1 c1 ki], f as [r2 ff].
  unfold has_shape in *. simpl in *.
  destruct Hs, Hki. subst.
  unfold matmul, matvec. simpl. rewrite Nat.eqb_refl. simpl. rewrite Nat.eqb_refl.
  eexists. split; [reflexivity|]. simpl. repeat split.
Qed.

Lemma cond_cov_run K_samp K_s K_ss Ki m n :
  has_shape K_s m n -> inv K_samp = Ok Ki -> has_shape Ki m m ->
  has_shape K_ss n n ->
  exists sig, cond_cov inv K_samp K_s K_ss = Ok sig /\ has_shape sig n n /\
    forall p q, (p < n)%nat -> (q < n)%nat ->
      item sig p q = item K_ss p q -
        rsum m (fun l => rsum m (fun k => item K_s k p * item Ki k l) * item K_s l q).
Proof.
  intros Hs Hinv Hki Hss. unfold cond_cov. rewrite Hinv. simpl.
  destruct K_s as [r0 c0 ks], Ki as [r1 c1 ki], K_ss as [r2 c2 kss].
  unfold has_shape in *. simpl in *.
  destruct Hs, Hki, Hss. subst.
  unfold matmul. simpl. rewrite Nat.eqb_refl. simpl. rewrite Nat.eqb_refl. simpl.
  unfold subtract, broadcast2. simpl. rewrite broadcast_dim_refl. simpl.
  eexists. split; [reflexivity|]. simpl. repeat split.
  intros p q Hp Hq. rewrite !bidx_lt by assumption. reflexivity.
Qed.

End PosteriorRun.

Lemma gp_mean_ext m Ks Ks' Ki y q :
  (forall k, (k < m)%nat -> Ks k q = Ks' k q) ->
  gp_mean m Ks Ki y q = gp_mean m Ks' Ki y q.
Proof.
  intros H. apply rsum_ext. intros l _. f_equal.
  apply rsum_ext. intros k Hk. rewrite (H k Hk). reflexivity.
Qed.

Lemma gp_cov_ext m Kss Kss' Ks Ks' Ki p q :
  Kss p q = Kss' p q ->
  (forall k, (k < m)%nat -> Ks k p = Ks' k p) ->
  (forall k, (k < m)%nat -> Ks k q = Ks' k q) ->
  gp_cov m Kss Ks Ki p q = gp_cov m Kss' Ks' Ki p q.
Proof.
  intros Hss Hp Hq. unfold gp_cov. rewrite Hss. f_equal.
  apply rsum_ext. intros l Hl. rewrite (Hq l Hl). f_equal.
  apply rsum_ext. intros k Hk. rewrite (Hp k Hk). reflexivity.
Qed.

Section PosteriorCells.

Variable inv : matrix -> result matrix.

Lemma posterior_1d_run x_samp f_samp x_s Ki m n :
  has_shape x_samp m 1 -> has_shape f_samp m 1 -> has_shape x_s n 1 ->
  inverts inv (sq_exp x_samp x_samp) Ki ->
  exists mu sig, posterior_1d inv x_samp f_samp x_s = Ok (mu, sig) /\
    has_shape mu n 1 /\ has_shape sig n n /\
    (forall q, (q < n)%nat ->
       item mu q O = gp_mean m (kernel_table 1 x_samp x_s) (item Ki)
                             (fun l => item f_samp l O) q) /\
    (forall p q, (p < n)%nat -> (q < n)%nat ->
       item sig p q = gp_cov m (kernel_table 1 x_s x_s)
                            (kernel_table 1 x_samp x_s) (item Ki) p q).
Proof.
  intros Hx Hf Hs (K & HK & Hinv & _ & Hki & _).
  destruct (sq_exp_table x_samp x_samp m m Hx Hx) as (K' & HK' & HshK & _).
  rewrite HK in HK'. injection HK' as <-.
  destruct HshK as [HK0 _]. rewrite HK0 in Hki.
  destruct (sq_exp_table x_s x_s n n Hs Hs) as (Kss & HKss & Hshss & Hitss).
  destruct (sq_exp_table x_samp x_s m n Hx Hs) as (Ks & HKs & Hshs & Hits).
  destruct (cond_mean_run inv K Ks f_samp Ki m n 1 Hshs Hinv Hki Hf)
    as (mu & Hmu & Hshmu & Hitmu).
  destruct (cond_cov_run inv K Ks Kss Ki m n Hshs Hinv Hki Hshss)
    as (sig & Hsig & Hshsig & Hitsig).
  exists mu, sig. unfold posterior_1d.
  rewrite HK, HKss, HKs. simpl. rewrite Hmu, Hsig. simpl.
  split; [reflexivity|]. split; [exact Hshmu|]. split; [exact Hshsig|]. split.
  - intros q Hq. rewrite Hitmu.
    apply (gp_mean_ext m (item Ks)). intros k Hk. apply Hits; assumption.
  - intros p q Hp Hq. rewrite Hitsig by assumption.
    apply gp_cov_ext; [apply Hitss; assumption| |];
      intros k Hk; apply Hits; assumption.
Qed.

Lemma posterior_2d_run x_samp f_samp x_s Ki m n d :
  has_shape x_samp m d -> len f_samp = m -> has_shape x_s n d ->
  inverts inv (sq_exp2d x_samp x_samp) Ki ->
  exists mu sig, posterior_2d inv x_samp f_samp x_s = Ok (mu, sig) /\
    len mu = n /\ has_shape sig n n /\
    (forall q, (q < n)%nat ->
       vitem mu q = gp_mean m (kernel_table d x_samp x_s) (item Ki)
                            (vitem f_samp) q) /\
    (forall p q, (p < n)%nat -> (q < n)%nat ->
       item sig p q = gp_cov m (kernel_table d x_s x_s)
                            (kernel_table d x_samp x_s) (item Ki) p q).
Proof.
  intros Hx Hf Hs (K & HK & Hinv & _ & Hki & _).
  destruct (sq_exp2d_table x_samp x_samp m m d Hx Hx) as (K' & HK' & HshK & _).
  rewrite HK in HK'. injection HK' as <-.
  destruct HshK as [HK0 _]. rewrite HK0 in Hki.
  destruct (sq_exp2d_table x_s x_s n n d Hs Hs) as (Kss & HKss & Hshss & Hitss).
  destruct (sq_exp2d_table x_samp x_s m n d Hx Hs) as (Ks & HKs & Hshs & Hits).
  destruct (cond_mean_flat_run inv K Ks f_samp Ki m n Hshs Hinv Hki Hf)
    as (mu & Hmu & Hshmu & Hitmu).
  destruct (cond_cov_run inv K Ks Kss Ki m n Hshs Hinv Hki Hshss)
    as (sig & Hsig & Hshsig & Hitsig).
  exists mu, sig. unfold posterior_2d.
  rewrite HK, HKss, HKs. simpl. rewrite Hmu, Hsig. simpl.
  split; [reflexivity|]. split; [exact Hshmu|]. split; [exact Hshsig|]. split.
  - intros q Hq. rewrite Hitmu.
    apply (gp_mean_ext m (item Ks)). intros k Hk. apply Hits; assumption.
  - intros p q Hp Hq. rewrite Hitsig by assumption.
    apply gp_cov_ext; [apply Hitss; assumption| |];
      intros k Hk; apply Hits; assumption.
Qed.

End PosteriorCells.

(** ** Algebra of the posterior *)

Section PosteriorAlgebra.

Variable m : nat.
Variables K Ki : nat -> nat -> R.
Hypothesis K_sym : symmetric m K.
Hypothesis K_Ki : forall a b, (a < m)%nat -> (b < m)%nat ->
  rsum m (fun k => K a k * Ki k b) = delta a b.



(** At a query that is training point [i], the posterior mean is the
    training value and the posterior variance vanishes. *)
Lemma gp_mean_at_training Ks y i q :
  (i < m)%nat -> (forall k, (k < m)%nat -> Ks k q = K i k) ->
  gp_mean m Ks Ki y q = y i.
Proof.
  intros Hi HKs. unfold gp_mean.
  rewrite (rsum_ext m _ (fun l => delta i l * y l)).
  - apply rsum_delta_l. assumption.
  - intros l Hl. f_equal. rewrite <- (K_Ki i l Hi Hl).
    apply rsum_ext. intros k Hk. rewrite HKs by assumption. reflexivity.
Qed.

Lemma gp_cov_at_training Kss Ks i q :
  (i < m)%nat -> (forall k, (k < m)%nat -> Ks k q = K i k) ->
  Kss q q = K i i ->
  gp_cov m Kss Ks Ki q q = 0.
Proof.
  intros Hi HKs Hqq. unfold gp_cov.
  rewrite (rsum_ext m _ (fun l => delta i l * Ks l q)).
  - rewrite rsum_delta_l by assumption. rewrite HKs, Hqq by assumption. lra.
  - intros l Hl. f_equal. rewrite <- (K_Ki i l Hi Hl).
    apply rsum_ext. intros k Hk. rewrite HKs by assumption. reflexivity.
Qed.


End PosteriorAlgebra.

(** *** The variance at a query point is a quadratic form of the joint kernel *)

Section Schur.

Variable m : nat.
Variables J Ki : nat -> nat -> R.
Hypothesis J_sym : symmetric (S m) J.
Hypothesis J_Ki : forall a b, (a < m)%nat -> (b < m)%nat ->
  rsum m (fun k => J a k * Ki k b) = delta a b.





End Schur.

(** *** The posterior of the cells *)

Lemma inverts_table_1d inv x Ki m :
  has_shape x m 1 -> inverts inv (sq_exp x x) Ki ->
  forall a b, (a < m)%nat -> (b < m)%nat ->
    rsum m (fun k => kernel_table 1 x x a k * item Ki k b) = delta a b.
Proof.
  intros Hx (K & HK & _ & _ & _ & Hinv) a b Ha Hb.
  destruct (sq_exp_table x x m m Hx Hx) as (K' & HK' & [HK0 _] & Hit).
  rewrite HK in HK'. injection HK' as <-. rewrite HK0 in Hinv.
  rewrite <- (Hinv a b Ha Hb).
  apply rsum_ext. intros k Hk. rewrite Hit by assumption. reflexivity.
Qed.

Lemma inverts_table_2d inv x Ki m d :
  has_shape x m d -> inverts inv (sq_exp2d x x) Ki ->
  forall a b, (a < m)%nat -> (b < m)%nat ->
    rsum m (fun k => kernel_table d x x a k * item Ki k b) = delta a b.
Proof.
  intros Hx (K & HK & _ & _ & _ & Hinv) a b Ha Hb.
  destruct (sq_exp2d_table x x m m d Hx Hx) as (K' & HK' & [HK0 _] & Hit).
  rewrite HK in HK'. injection HK' as <-. rewrite HK0 in Hinv.
  rewrite <- (Hinv a b Ha Hb).
  apply rsum_ext. intros k Hk. rewrite Hit by assumption. reflexivity.
Qed.

Section PosteriorFacts.

Variables m d : nat.
Variables x_samp x_s : matrix.
Variable Ki : nat -> nat -> R.
Hypothesis x_samp_shape : has_shape x_samp m d.
Hypothesis table_Ki : forall a b, (a < m)%nat -> (b < m)%nat ->
  rsum m (fun k => kernel_table d x_samp x_samp a k * Ki k b) = delta a b.

Lemma posterior_mean_at_training y i q :
  (i < m)%nat -> same_point d x_s q x_samp i ->
  gp_mean m (kernel_table d x_samp x_s) Ki y q = y i.
Proof.
  intros Hi Hsame.
  apply (gp_mean_at_training m (kernel_table d x_samp x_samp) Ki table_Ki
           (kernel_table d x_samp x_s) y i q Hi).
  intros k Hk. unfold kernel_table.
  rewrite (k_se_same_point d x_samp k x_s q x_samp i Hsame). apply k_se_sym.
Qed.

Lemma posterior_cov_at_training i q :
  (i < m)%nat -> same_point d x_s q x_samp i ->
  gp_cov m (kernel_table d x_s x_s) (kernel_table d x_samp x_s) Ki q q = 0.
Proof.
  intros Hi Hsame.
  apply (gp_cov_at_training m (kernel_table d x_samp x_samp) Ki table_Ki
           (kernel_table d x_s x_s) (kernel_table d x_samp x_s) i q Hi).
  - intros k Hk. unfold kernel_table.
    rewrite (k_se_same_point d x_samp k x_s q x_samp i Hsame). apply k_se_sym.
  - unfold kernel_table. rewrite !k_se_diag. reflexivity.
Qed.



End PosteriorFacts.

(** *** A duplicated training point *)

(** Two training rows that are the same point give the training kernel two
    equal rows: it has no inverse, whatever the jitter added to the array
    that is factored, since the array that is inverted carries no jitter. *)
Lemma duplicate_point_singular d x m i j K Ki :
  shape0 K = m ->
  (forall a b, (a < m)%nat -> (b < m)%nat -> item K a b = kernel_table d x x a b) ->
  (i < m)%nat -> (j < m)%nat -> i <> j -> same_point d x i x j ->
  ~ is_inverse_of K Ki.
Proof.
  intros HK Hit Hi Hj Hne Hsame (_ & _ & Hinv). rewrite HK in Hinv.
  pose proof (Hinv i i Hi Hi) as Hii. pose proof (Hinv j i Hj Hi) as Hji.
  assert (Heq : rsum m (fun k => item K i k * item Ki k i) =
                rsum m (fun k => item K j k * item Ki k i)).
  { apply rsum_ext. intros k Hk. rewrite !Hit by assumption.
    f_equal. apply k_se_rows; [exact Hsame | intros t _; reflexivity]. }
  rewrite Hii, Hji in Heq. unfold delta in Heq.
  rewrite Nat.eqb_refl in Heq.
  destruct (Nat.eqb_spec j i) as [E|_]; [congruence|lra].
Qed.

Lemma duplicate_point_not_inverted_1d inv x m i j Ki :
  has_shape x m 1 -> (i < m)%nat -> (j < m)%nat -> i <> j ->
  same_point 1 x i x j -> ~ inverts inv (sq_exp x x) Ki.
Proof.
  intros Hx Hi Hj Hne Hsame (K & HK & _ & His).
  destruct (sq_exp_table x x m m Hx Hx) as (K' & HK' & [HK0 _] & Hit).
  rewrite HK in HK'. injection HK' as <-.
  exact (duplicate_point_singular 1 x m i j K Ki HK0 Hit Hi Hj Hne Hsame His).
Qed.

Lemma duplicate_point_not_inverted_2d inv x m d i j Ki :
  has_shape x m d -> (i < m)%nat -> (j < m)%nat -> i <> j ->
  same_point d x i x j -> ~ inverts inv (sq_exp2d x x) Ki.
Proof.
  intros Hx Hi Hj Hne Hsame (K & HK & _ & His).
  destruct (sq_exp2d_table x x m m d Hx Hx) as (K' & HK' & [HK0 _] & Hit).
  rewrite HK in HK'. injection HK' as <-.
  exact (duplicate_point_singular d x m i j K Ki HK0 Hit Hi Hj Hne Hsame His).
Qed.

(** ** Properties of the posterior computation *)

(** C1. For m training points, m training values and n query points of
    dimension d, with the training kernel K invertible and K^-1 its inverse,
    both posterior cells return the mean K_s^T . K^-1 . y (n values) and the
    covariance K_ss - K_s^T . K^-1 . K_s (n by n), K_s being the kernel
    between training and query points and K_ss the kernel between query
    points; the one-dimensional cell holds the mean as a column of n rows. *)
Theorem posterior_formula (inv : matrix -> result matrix)
        (x_samp x_s Ki f_col : matrix) (f_flat : vector) (m n d : nat) :
  has_shape x_samp m d -> has_shape x_s n d ->
  (len f_flat = m -> inverts inv (sq_exp2d x_samp x_samp) Ki ->
   exists mu sig, posterior_2d inv x_samp f_flat x_s = Ok (mu, sig) /\
     len mu = n /\ has_shape sig n n /\
     (forall q, (q < n)%nat ->
        vitem mu q = gp_mean m (kernel_table d x_samp x_s) (item Ki)
                             (vitem f_flat) q) /\
     (forall p q, (p < n)%nat -> (q < n)%nat ->
        item sig p q = gp_cov m (kernel_table d x_s x_s)
                             (kernel_table d x_samp x_s) (item Ki) p q)) /\
  (d = 1%nat -> has_shape f_col m 1 -> inverts inv (sq_exp x_samp x_samp) Ki ->
   exists mu sig, posterior_1d inv x_samp f_col x_s = Ok (mu, sig) /\
     has_shape mu n 1 /\ len (flatten mu) = n /\ has_shape sig n n /\
     (forall q, (q < n)%nat ->
        item mu q O = gp_mean m (kernel_table 1 x_samp x_s) (item Ki)
                              (fun l => item f_col l O) q) /\
     (forall p q, (p < n)%nat -> (q < n)%nat ->
        item sig p q = gp_cov m (kernel_table 1 x_s x_s)
                             (kernel_table 1 x_samp x_s) (item Ki) p q)).
Proof.
  intros Hx Hs. split.
  - intros Hf Hinv. apply posterior_2d_run; assumption.
  - intros -> Hf Hinv.
    destruct (posterior_1d_run inv x_samp f_col x_s Ki m n Hx Hf Hs Hinv)
      as (mu & sig & Hrun & Hmu & Hsig & Hmean & Hcov).
    exists mu, sig. repeat split; try assumption; try apply Hmu; try apply Hsig.
    destruct Hmu as [H0 H1]. simpl. rewrite H0, H1. lia.
Qed.

Lemma posterior_formula_witness :
  (exists Ki mu sig,
     inverts inv_cofactor (sq_exp2d X_train_2d X_train_2d) Ki /\
     posterior_2d inv_cofactor X_train_2d y_flat_ex x1_grid = Ok (mu, sig) /\
     len mu = 4%nat /\ has_shape sig 4 4 /\
     (forall q, (q < 4)%nat ->
        vitem mu q = gp_mean 2 (kernel_table 2 X_train_2d x1_grid) (item Ki)
                             (vitem y_flat_ex) q) /\
     (forall p q, (p < 4)%nat -> (q < 4)%nat ->
        item sig p q = gp_cov 2 (kernel_table 2 x1_grid x1_grid)
                             (kernel_table 2 X_train_2d x1_grid) (item Ki) p q)) /\
  (exists Ki mu sig,
     inverts inv_cofactor (sq_exp X_train_ex X_train_ex) Ki /\
     posterior_1d inv_cofactor X_train_ex y_train_ex X_query_ex = Ok (mu, sig) /\
     has_shape mu 1 1 /\ len (flatten mu) = 1%nat /\ has_shape sig 1 1 /\
     (forall q, (q < 1)%nat ->
        item mu q O = gp_mean 2 (kernel_table 1 X_train_ex X_query_ex) (item Ki)
                              (fun l => item y_train_ex l O) q) /\
     (forall p q, (p < 1)%nat -> (q < 1)%nat ->
        item sig p q = gp_cov 2 (kernel_table 1 X_query_ex X_query_ex)
                             (kernel_table 1 X_train_ex X_query_ex) (item Ki) p q)).
Proof.
  split.
  - destruct (cofactor_inverts_2d X_train_2d 2 X_train_2d_shape X_train_2d_distinct)
      as [Ki HKi].
    destruct (proj1 (posterior_formula inv_cofactor X_train_2d x1_grid Ki
                       y_train_ex y_flat_ex 2 4 2
                       X_train_2d_shape (conj eq_refl eq_refl))
                    eq_refl HKi)
      as (mu & sig & H).
    exists Ki, mu, sig. split; [exact HKi | exact H].
  - destruct (cofactor_inverts_1d X_train_ex X_train_ex_shape X_train_ex_distinct)
      as [Ki HKi].
    destruct (proj2 (posterior_formula inv_cofactor X_train_ex X_query_ex Ki
                       y_train_ex y_flat_ex 2 1 1
                       X_train_ex_shape (conj eq_refl eq_refl))
                    eq_refl (conj eq_refl eq_refl) HKi)
      as (mu & sig & H).
    exists Ki, mu, sig. split; [exact HKi | exact H].
Defined.

(** *** The posterior with a computed inverse *)











Section ComputedInverse.

Variables m d : nat.
Variables x_samp x_s : matrix.
Variables Ki Kx : nat -> nat -> R.
Variable tau : R.
Hypothesis x_samp_shape : has_shape x_samp m d.
Hypothesis table_Kx : forall a b, (a < m)%nat -> (b < m)%nat ->
  rsum m (fun k => kernel_table d x_samp x_samp a k * Kx k b) = delta a b.
Hypothesis Ki_close : forall k l, (k < m)%nat -> (l < m)%nat ->
  Rabs (Ki k l - Kx k l) <= tau.






End ComputedInverse.

(** *** The rounded inverse *)











(** ** Properties of the posterior computation, continued *)







(** ** The concrete scenario *)

Lemma exp_half_facts :
  0 < exp (-0.5) < 1 /\
  exp (-2) = exp (-0.5) * exp (-0.5) * (exp (-0.5) * exp (-0.5)).
Proof.
  split; [split|].
  - apply exp_pos.
  - rewrite <- exp_0. apply exp_increasing. lra.
  - rewrite <- !exp_plus. f_equal. lra.
Qed.

Lemma scenario_tables :
  kernel_table 1 X_train_ex X_train_ex 0 0 = 1 /\
  kernel_table 1 X_train_ex X_train_ex 0 1 = exp (-2) /\
  kernel_table 1 X_train_ex X_train_ex 1 0 = exp (-2) /\
  kernel_table 1 X_train_ex X_train_ex 1 1 = 1 /\
  kernel_table 1 X_train_ex X_query_ex 0 0 = exp (-0.5) /\
  kernel_table 1 X_train_ex X_query_ex 1 0 = exp (-0.5) /\
  kernel_table 1 X_query_ex X_query_ex 0 0 = 1.
Proof.
  unfold kernel_table, k_se, sq_dist. simpl.
  repeat split;
    match goal with
    | |- exp _ = 1 => transitivity (exp 0); [f_equal; lra | apply exp_0]
    | |- exp _ = exp _ => f_equal; lra
    end.
Qed.

(** C9. For X_train = [[-1.0], [1.0]], y_train = [-0.8415, 0.8415] and
    X_query = [[0.0]], with the training kernel inverted, the posterior mean
    lies strictly between -0.8415 and 0.8415 and within 1e-2 of 0.0, and the
    posterior variance at the query point lies strictly between 0 and 1.0. *)
Theorem concrete_scenario (inv : matrix -> result matrix) (Ki : matrix) :
  inverts inv (sq_exp X_train_ex X_train_ex) Ki ->
  exists mu sig,
    posterior_1d inv X_train_ex y_train_ex X_query_ex = Ok (mu, sig) /\
    has_shape mu 1 1 /\ has_shape sig 1 1 /\
    - 0.8415 < item mu 0 0 < 0.8415 /\
    Rabs (item mu 0 0 - 0.0) <= 1e-2 /\
    0 < item sig 0 0 < 1.0.
Proof.
  intros Hinv.
  destruct (posterior_1d_run inv X_train_ex y_train_ex X_query_ex Ki 2 1
              X_train_ex_shape (conj eq_refl eq_refl) (conj eq_refl eq_refl) Hinv)
    as (mu & sig & Hrun & Hmu & Hsig & Hmean & Hcov).
  pose proof (inverts_table_1d inv X_train_ex Ki 2 X_train_ex_shape Hinv) as Htab.
  destruct scenario_tables as (T00 & T01 & T10 & T11 & S0 & S1 & Q0).
  destruct exp_half_facts as (Hs & Ht).
  pose proof (Htab 0%nat 0%nat ltac:(lia) ltac:(lia)) as E00.
  pose proof (Htab 0%nat 1%nat ltac:(lia) ltac:(lia)) as E01.
  pose proof (Htab 1%nat 0%nat ltac:(lia) ltac:(lia)) as E10.
  pose proof (Htab 1%nat 1%nat ltac:(lia) ltac:(lia)) as E11.
  unfold delta in E00, E01, E10, E11. simpl in E00, E01, E10, E11.
  rewrite T00, T01 in E00, E01. rewrite T10, T11 in E10, E11.
  specialize (Hmean 0%nat ltac:(lia)).
  specialize (Hcov 0%nat 0%nat ltac:(lia) ltac:(lia)).
  unfold gp_mean, gp_cov in Hmean, Hcov. simpl in Hmean, Hcov.
  rewrite S0, S1 in Hmean, Hcov. rewrite Q0 in Hcov.
  set (s := exp (-0.5)) in *. set (t := exp (-2)) in *.
  set (a := item Ki 0 0) in *. set (b := item Ki 0 1) in *.
  set (c := item Ki 1 0) in *. set (e := item Ki 1 1) in *.
  clearbody s t a b c e. clear Htab T00 T01 T10 T11 S0 S1 Q0.
  assert (Hss : 0 < s * s < 1) by (clear - Hs; nra).
  assert (Ht1 : 0 < t < 1) by (clear - Hss Ht; nra).
  assert (Hac : (a + c) * (1 + t) = 1) by (clear - E00 E10; nra).
  assert (Hbe : (b + e) * (1 + t) = 1) by (clear - E01 E11; nra).
  assert (Heq : a + c = b + e).
  { apply (Rmult_eq_reg_r (1 + t)); lra. }
  assert (Hw : 0 < a + c) by (clear - Hac Ht1; nra).
  assert (Hmu0 : item mu 0 0 = 0).
  { rewrite Hmean. replace (0 + s * a + s * c) with (s * (a + c)) by ring.
    replace (0 + s * b + s * e) with (s * (b + e)) by ring.
    rewrite <- Heq. lra. }
  assert (Hvar : item sig 0 0 = 1 - 2 * (s * s) * (a + c)).
  { rewrite Hcov. replace (0 + s * a + s * c) with (s * (a + c)) by ring.
    replace (0 + s * b + s * e) with (s * (b + e)) by ring.
    rewrite <- Heq. ring. }
  exists mu, sig. split; [exact Hrun|]. split; [exact Hmu|]. split; [exact Hsig|].
  rewrite Hmu0, Hvar. split; [lra|]. split.
  - replace (0 - 0.0) with 0 by lra. rewrite Rabs_R0. lra.
  - assert (Hgap : 2 * (s * s) < 1 + t) by (clear - Hss Ht; nra).
    assert (Hprod : 2 * (s * s) * (a + c) < (1 + t) * (a + c)).
    { apply Rmult_lt_compat_r; lra. }
    assert (Hpos : 0 < 2 * (s * s) * (a + c)).
    { apply Rmult_lt_0_compat; lra. }
    split; lra.
Qed.

Lemma concrete_scenario_witness :
  exists Ki mu sig,
    posterior_1d inv_cofactor X_train_ex y_train_ex X_query_ex = Ok (mu, sig) /\
    has_shape mu 1 1 /\ has_shape sig 1 1 /\
    - 0.8415 < item mu 0 0 < 0.8415 /\
    Rabs (item mu 0 0 - 0.0) <= 1e-2 /\
    0 < item sig 0 0 < 1.0 /\
    inverts inv_cofactor (sq_exp X_train_ex X_train_ex) Ki.
Proof.
  destruct (cofactor_inverts_1d X_train_ex X_train_ex_shape X_train_ex_distinct)
    as [Ki HKi].
  destruct (concrete_scenario inv_cofactor Ki HKi)
    as (mu & sig & H1 & H2 & H3 & H4 & H5 & H6).
  exists Ki, mu, sig. repeat split; try assumption; try apply H2; try apply H3;
    try apply H4; try apply H6.
Defined.

(** ** Prior sampling *)

(** C5. Prior sampling builds K = kernel(X, X), adds the jitter 1e-6 . I,
    factors K + 1e-6 . I as L . L^T with L lower triangular, and returns
    L . z, an array of shape (|X|, num_samples), z being the drawn values.
    The factorisation is the library's: it is assumed to factor every
    symmetric positive-definite array. *)
Theorem sample_prior_algorithm (cholesky : matrix -> result matrix)
        (x_train : matrix) (n num_samples : nat) (z : nat -> nat -> R) :
  cholesky_contract cholesky -> has_shape x_train n 1 ->
  exists K Keps L F,
    sq_exp x_train x_train = Ok K /\
    add K (scale 1e-6 (eye n)) = Ok Keps /\
    (forall i j, (i < n)%nat -> (j < n)%nat ->
       item Keps i j = k_se 1 x_train i x_train j + 1e-6 * delta i j) /\
    cholesky Keps = Ok L /\ has_shape L n n /\
    is_cholesky_of n (item Keps) (item L) /\
    sample_prior cholesky x_train num_samples z = Ok F /\
    has_shape F n num_samples /\
    forall i s, item F i s = rsum n (fun k => item L i k * z k s).
Proof.
  intros Hchol Hx.
  destruct (sq_exp_table x_train x_train n n Hx Hx) as (K & HK & HshK & HitK).
  destruct (jittered_kernel K 1 x_train n HshK HitK)
    as (Keps & Hadd & Hsheps & Hiteps & Hsym & Hpd).
  destruct (Hchol Keps n Hsheps Hsym Hpd) as (L & HL & HshL & Hfac).
  exists K, Keps, L.
  unfold sample_prior. destruct Hx as [Hx0 Hx1]. rewrite Hx0, HK. simpl.
  rewrite Hadd. simpl. rewrite HL. simpl.
  destruct HshL as [HL0 HL1]. unfold matmul. simpl. rewrite HL1, Nat.eqb_refl.
  eexists. split; [reflexivity|]. split; [exact Hadd|]. split; [exact Hiteps|].
  split; [reflexivity|]. split; [split; assumption|]. split; [exact Hfac|].
  split; [reflexivity|]. split; [split; [exact HL0|reflexivity]|].
  intros i s. reflexivity.
Qed.

Lemma sample_prior_algorithm_witness :
  exists K Keps L F,
    sq_exp X_train_ex X_train_ex = Ok K /\
    add K (scale 1e-6 (eye 2)) = Ok Keps /\
    (forall i j, (i < 2)%nat -> (j < 2)%nat ->
       item Keps i j = k_se 1 X_train_ex i X_train_ex j + 1e-6 * delta i j) /\
    cholesky_ref Keps = Ok L /\ has_shape L 2 2 /\
    is_cholesky_of 2 (item Keps) (item L) /\
    sample_prior cholesky_ref X_train_ex 10 z_ex = Ok F /\
    has_shape F 2 10 /\
    forall i s, item F i s = rsum 2 (fun k => item L i k * z_ex k s).
Proof.
  exact (sample_prior_algorithm cholesky_ref X_train_ex 2 10 z_ex
           cholesky_ref_contract X_train_ex_shape).
Defined.

(** The prior-sampling cell can fail only in the factorisation, or in the
    product with a factor that has not the shape of the kernel. *)
Lemma sample_prior_steps cholesky x_train n num_samples z :
  has_shape x_train n 1 ->
  exists Keps, has_shape Keps n n /\
    pos_def n (item Keps) /\
    sample_prior cholesky x_train num_samples z =
    (L <- cholesky Keps ;; matmul L (mkmat n num_samples z)).
Proof.
  intros Hx.
  destruct (sq_exp_table x_train x_train n n Hx Hx) as (K & HK & HshK & HitK).
  destruct (jittered_kernel K 1 x_train n HshK HitK)
    as (Keps & Hadd & Hsheps & _ & _ & Hpd).
  exists Keps. split; [exact Hsheps|]. split; [exact Hpd|].
  unfold sample_prior. destruct Hx as [Hx0 _]. rewrite Hx0, HK. simpl.
  rewrite Hadd. reflexivity.
Qed.

(** The factor computed at the head of the posterior cells always exists,
    so the cells return what the posterior lines return. *)
Lemma cell_posterior_1d_runs inv cholesky x_samp f_samp x_s m :
  cholesky_contract cholesky -> has_shape x_samp m 1 ->
  cell_posterior_1d inv cholesky x_samp f_samp x_s =
  posterior_1d inv x_samp f_samp x_s.
Proof.
  intros Hchol Hx.
  destruct (sq_exp_table x_samp x_samp m m Hx Hx) as (K & HK & HshK & HitK).
  destruct (jittered_kernel K 1 x_samp m HshK HitK)
    as (Keps & Hadd & Hsheps & _ & Hsym & Hpd).
  destruct (Hchol Keps m Hsheps Hsym Hpd) as (L & HL & _).
  unfold cell_posterior_1d. destruct Hx as [Hx0 _].
  rewrite HK. simpl. rewrite Hx0, Hadd. simpl. rewrite HL. reflexivity.
Qed.

Lemma cell_posterior_2d_runs inv cholesky x_samp f_samp x_s m d :
  cholesky_contract cholesky -> has_shape x_samp m d ->
  cell_posterior_2d inv cholesky x_samp f_samp x_s =
  posterior_2d inv x_samp f_samp x_s.
Proof.
  intros Hchol Hx.
  destruct (sq_exp2d_table x_samp x_samp m m d Hx Hx) as (K & HK & HshK & HitK).
  destruct (jittered_kernel K d x_samp m HshK HitK)
    as (Keps & Hadd & Hsheps & _ & Hsym & Hpd).
  destruct (Hchol Keps m Hsheps Hsym Hpd) as (L & HL & _).
  unfold cell_posterior_2d. destruct Hx as [Hx0 _].
  rewrite HK. simpl. rewrite Hx0, Hadd. simpl. rewrite HL. reflexivity.
Qed.

(** ** Shape errors *)

(** The one-dimensional cell does not compare the dimensions of the training
    and query points: two training points of dimension 1 and two query
    points of dimension 2 broadcast, and a posterior is returned. *)
Lemma dimension_mismatch_not_raised :
  shape1 X_train_ex <> shape1 X_query_2d /\
  shape0 y_train_ex = shape0 X_train_ex /\
  exists mu sig,
    posterior_1d inv_cofactor X_train_ex y_train_ex X_query_2d = Ok (mu, sig).
Proof.
  split; [simpl; lia|]. split; [reflexivity|].
  destruct (cofactor_inverts_1d X_train_ex X_train_ex_shape X_train_ex_distinct)
    as (Ki & K & HK & Hinv & _ & Hki & _).
  destruct (sq_exp_table X_train_ex X_train_ex 2 2 X_train_ex_shape X_train_ex_shape)
    as (K' & HK' & [HK0 _] & _).
  rewrite HK in HK'. injection HK' as <-. rewrite HK0 in Hki.
  assert (Hss : exists Kss, sq_exp X_query_2d X_query_2d = Ok Kss /\ has_shape Kss 2 2).
  { eexists. split; [reflexivity|split; reflexivity]. }
  assert (Hs : exists Ks, sq_exp X_train_ex X_query_2d = Ok Ks /\ has_shape Ks 2 2).
  { eexists. split; [reflexivity|split; reflexivity]. }
  destruct Hss as (Kss & HKss & Hshss). destruct Hs as (Ks & HKs & Hshs).
  destruct (cond_mean_run inv_cofactor K Ks y_train_ex Ki 2 2 1 Hshs Hinv Hki
              (conj eq_refl eq_refl)) as (mu & Hmu & _).
  destruct (cond_cov_run inv_cofactor K Ks Kss Ki 2 2 Hshs Hinv Hki Hshss)
    as (sig & Hsig & _).
  exists mu, sig. unfold posterior_1d.
  rewrite HK, HKss, HKs. simpl. rewrite Hmu, Hsig. reflexivity.
Qed.

(** C7, as the code has it.  A length of the training values (the number
    of rows of the array of values in the one-dimensional cell, the number
    of values of the flat array in the two-dimensional cell) that differs
    from the number m of training points makes the matrix product raise
    [ValueError], which is the result of the posterior computation, in both
    cells, once the inversion of the training kernel has returned an m by m
    array; and in the cell of the Euclidean-distance kernel, training and
    query points of different dimensions make [cdist] raise [ValueError]. *)
Theorem shape_mismatch_raised (inv : matrix -> result matrix)
        (x_samp x_s Ki f_col : matrix) (f_flat : vector) (m n d d' : nat) :
  has_shape x_samp m d -> has_shape x_s n d' ->
  (d <> d' -> posterior_2d inv x_samp f_flat x_s = Err ValueError) /\
  (d = d' -> len f_flat <> m ->
   (exists K, sq_exp2d x_samp x_samp = Ok K /\ inv K = Ok Ki) ->
   has_shape Ki m m ->
   posterior_2d inv x_samp f_flat x_s = Err ValueError) /\
  (d = 1%nat -> d' = 1%nat -> shape0 f_col <> m ->
   (exists K, sq_exp x_samp x_samp = Ok K /\ inv K = Ok Ki) ->
   has_shape Ki m m ->
   posterior_1d inv x_samp f_col x_s = Err ValueError).
Proof.
  intros Hx Hs. split; [|split].
  - intros Hne.
    destruct (sq_exp2d_table x_samp x_samp m m d Hx Hx) as (K & HK & _).
    destruct (sq_exp2d_table x_s x_s n n d' Hs Hs) as (Kss & HKss & _).
    unfold posterior_2d. rewrite HK, HKss. simpl.
    unfold sq_exp2d, cdist. destruct Hx as [_ Hx1], Hs as [_ Hs1].
    rewrite Hx1, Hs1.
    destruct (Nat.eqb_spec d d') as [Heq|_]; [contradiction|reflexivity].
  - intros <- Hlen (K & HK & Hinv) Hki.
    destruct (sq_exp2d_table x_s x_s n n d Hs Hs) as (Kss & HKss & _).
    destruct (sq_exp2d_table x_samp x_s m n d Hx Hs) as (Ks & HKs & Hshs & _).
    unfold posterior_2d. rewrite HK, HKss, HKs. simpl.
    unfold cond_mean_flat. rewrite Hinv. simpl.
    destruct Hshs as [Hs0 Hs1], Hki as [Hk0 Hk1].
    unfold matmul. simpl. rewrite Hs0, Hk0, Nat.eqb_refl. simpl.
    unfold matvec. simpl. rewrite Hk1.
    destruct (Nat.eqb_spec m (len f_flat)) as [Heq|_]; [congruence|reflexivity].
  - intros -> -> Hlen (K & HK & Hinv) Hki.
    destruct (sq_exp_table x_s x_s n n Hs Hs) as (Kss & HKss & _).
    destruct (sq_exp_table x_samp x_s m n Hx Hs) as (Ks & HKs & Hshs & _).
    unfold posterior_1d. rewrite HK, HKss, HKs. simpl.
    unfold cond_mean. rewrite Hinv. simpl.
    destruct Hshs as [Hs0 Hs1], Hki as [Hk0 Hk1].
    unfold matmul at 1. simpl. rewrite Hs0, Hk0, Nat.eqb_refl. simpl.
    unfold matmul. simpl. rewrite Hk1.
    destruct (Nat.eqb_spec m (shape0 f_col)) as [Heq|_]; [congruence|reflexivity].
Qed.

Lemma shape_mismatch_raised_witness :
  posterior_2d inv_cofactor X_train_ex y_flat_ex X_query_2d = Err ValueError /\
  posterior_2d inv_cofactor X_train_ex y_short_flat X_query_ex = Err ValueError /\
  posterior_1d inv_cofactor X_train_ex y_short_ex X_query_ex = Err ValueError.
Proof.
  split; [|split].
  - apply (proj1 (shape_mismatch_raised inv_cofactor X_train_ex X_query_2d
                    X_train_ex y_short_ex y_flat_ex 2 2 1 2
                    X_train_ex_shape (conj eq_refl eq_refl))).
    lia.
  - destruct (cofactor_inverts_2d X_train_ex 1 X_train_ex_shape X_train_ex_distinct)
      as (Ki & K & HK & Hinv & _ & Hki & _).
    destruct (sq_exp2d_table X_train_ex X_train_ex 2 2 1
                X_train_ex_shape X_train_ex_shape) as (K' & HK' & [HK0 _] & _).
    rewrite HK in HK'. injection HK' as <-. rewrite HK0 in Hki.
    apply (proj1 (proj2 (shape_mismatch_raised inv_cofactor X_train_ex X_query_ex
                    Ki y_short_ex y_short_flat 2 1 1 1
                    X_train_ex_shape (conj eq_refl eq_refl)))
             eq_refl).
    + simpl. lia.
    + exists K. split; assumption.
    + exact Hki.
  - destruct (cofactor_inverts_1d X_train_ex X_train_ex_shape X_train_ex_distinct)
      as (Ki & K & HK & Hinv & _ & Hki & _).
    destruct (sq_exp_table X_train_ex X_train_ex 2 2 X_train_ex_shape X_train_ex_shape)
      as (K' & HK' & [HK0 _] & _).
    rewrite HK in HK'. injection HK' as <-. rewrite HK0 in Hki.
    apply (proj2 (proj2 (shape_mismatch_raised inv_cofactor X_train_ex X_query_ex
                    Ki y_short_ex y_flat_ex 2 1 1 1
                    X_train_ex_shape (conj eq_refl eq_refl)))
             eq_refl eq_refl).
    + simpl. lia.
    + exists K. split; assumption.
    + exact Hki.
Defined.

(** The one-dimensional cell takes training values in several columns:
    with two training points and a (2, 3) array of values the product is
    defined and the mean has three columns.  What the product compares
    with the number of training points is the number of rows. *)
Lemma training_values_in_columns_accepted :
  exists mu sig,
    posterior_1d inv_cofactor X_train_ex y_wide_ex X_query_ex = Ok (mu, sig) /\
    has_shape mu 1 3.
Proof.
  destruct (cofactor_inverts_1d X_train_ex X_train_ex_shape X_train_ex_distinct)
    as (Ki & K & HK & Hinv & _ & Hki & _).
  destruct (sq_exp_table X_train_ex X_train_ex 2 2 X_train_ex_shape X_train_ex_shape)
    as (K' & HK' & [HK0 _] & _).
  rewrite HK in HK'. injection HK' as <-. rewrite HK0 in Hki.
  destruct (sq_exp_table X_query_ex X_query_ex 1 1
              (conj eq_refl eq_refl) (conj eq_refl eq_refl))
    as (Kss & HKss & Hshss & _).
  destruct (sq_exp_table X_train_ex X_query_ex 2 1
              X_train_ex_shape (conj eq_refl eq_refl))
    as (Ks & HKs & Hshs & _).
  destruct (cond_mean_run inv_cofactor K Ks y_wide_ex Ki 2 1 3 Hshs Hinv Hki
              (conj eq_refl eq_refl)) as (mu & Hmu & Hshmu & _).
  destruct (cond_cov_run inv_cofactor K Ks Kss Ki 2 1 Hshs Hinv Hki Hshss)
    as (sig & Hsig & _).
  exists mu, sig. unfold posterior_1d.
  rewrite HK, HKss, HKs. simpl. rewrite Hmu, Hsig. split; [reflexivity|exact Hshmu].
Qed.

(** The inversion runs before the product with the training values: with a
    duplicated training point and training values one short, the error
    raised is the [LinAlgError] of the inversion, not a shape error. *)
Lemma inversion_error_comes_first :
  shape0 y_short_ex <> shape0 X_dup_ex /\
  posterior_1d inv_cofactor X_dup_ex y_short_ex X_query_ex = Err LinAlgError /\
  posterior_2d inv_cofactor X_dup_ex y_short_flat X_query_ex = Err LinAlgError.
Proof.
  split; [simpl; lia|].
  assert (Hdet : forall u : R, u * u - u * u = 0) by (intros; lra).
  split.
  - unfold posterior_1d. simpl. unfold cond_mean, inv_cofactor. simpl.
    destruct (Req_dec_T _ 0) as [_|Hne]; [reflexivity|].
    exfalso. apply Hne. apply Hdet.
  - unfold posterior_2d. simpl. unfold cond_mean_flat, inv_cofactor. simpl.
    destruct (Req_dec_T _ 0) as [_|Hne]; [reflexivity|].
    exfalso. apply Hne. apply Hdet.
Qed.

(** ** Errors of the library routines *)




(** ** Further properties of the kernels *)

(** X1. The kernel of a point set with itself is an m by m array that is
    symmetric, has a unit diagonal and is positive semi-definite: through
    [sq_exp2d] in every dimension, through [sq_exp] in dimension one. *)
Theorem kernel_matrix_valid (x : matrix) (m d : nat) :
  has_shape x m d ->
  (exists K, sq_exp2d x x = Ok K /\ has_shape K m m /\
     symmetric m (item K) /\ (forall i, (i < m)%nat -> item K i i = 1) /\
     pos_semidef m (item K)) /\
  (d = 1%nat ->
   exists K, sq_exp x x = Ok K /\ has_shape K m m /\
     symmetric m (item K) /\ (forall i, (i < m)%nat -> item K i i = 1) /\
     pos_semidef m (item K)).
Proof.
  intros Hx.
  assert (Hgen : forall K,
    (forall i j, (i < m)%nat -> (j < m)%nat -> item K i j = kernel_table d x x i j) ->
    symmetric m (item K) /\ (forall i, (i < m)%nat -> item K i i = 1) /\
    pos_semidef m (item K)).
  { intros K Hit. split; [|split].
    - intros i j Hi Hj. rewrite !Hit by assumption. apply k_se_sym.
    - intros i Hi. rewrite Hit by assumption. apply k_se_diag.
    - apply (psd_ext m (kernel_table d x x)); [|apply k_se_psd].
      intros i j Hi Hj. symmetry. apply Hit; assumption. }
  split.
  - destruct (sq_exp2d_table x x m m d Hx Hx) as (K & HK & Hsh & Hit).
    exists K. split; [exact HK|]. split; [exact Hsh|]. apply Hgen, Hit.
  - intros ->.
    destruct (sq_exp_table x x m m Hx Hx) as (K & HK & Hsh & Hit).
    exists K. split; [exact HK|]. split; [exact Hsh|]. apply Hgen, Hit.
Qed.

Lemma kernel_matrix_valid_witness :
  (exists K, sq_exp2d x1_grid x1_grid = Ok K /\ has_shape K 4 4 /\
     symmetric 4 (item K) /\ (forall i, (i < 4)%nat -> item K i i = 1) /\
     pos_semidef 4 (item K)) /\
  (exists K, sq_exp X_train_ex X_train_ex = Ok K /\ has_shape K 2 2 /\
     symmetric 2 (item K) /\ (forall i, (i < 2)%nat -> item K i i = 1) /\
     pos_semidef 2 (item K)).
Proof.
  split.
  - apply (kernel_matrix_valid x1_grid 4 2). split; reflexivity.
  - apply (kernel_matrix_valid X_train_ex 2 1 X_train_ex_shape). reflexivity.
Defined.

(** X2. On points of dimension d >= 2 the pairwise-difference kernel
    [sq_exp] raises [ValueError] unless each of the two sets has exactly one
    or exactly d points; and when it returns, its result has shape (d, d)
    whatever the numbers of points. *)
Theorem sq_exp_dimension_two_up (x1 x2 : matrix) (m n d : nat) :
  has_shape x1 m d -> has_shape x2 n d -> (2 <= d)%nat ->
  ((m = d \/ m = 1%nat) /\ (n = d \/ n = 1%nat) ->
   exists K, sq_exp x1 x2 = Ok K /\ has_shape K d d) /\
  (~ ((m = d \/ m = 1%nat) /\ (n = d \/ n = 1%nat)) ->
   sq_exp x1 x2 = Err ValueError).
Proof.
  intros [H0 H1] [H2 H3] Hd.
  unfold sq_exp, subtract, broadcast2. simpl. rewrite H0, H1, H2, H3.
  unfold broadcast_dim.
  destruct (Nat.eqb_spec m d) as [Emd|Emd];
    destruct (Nat.eqb_spec m 1) as [Em1|Em1];
    destruct (Nat.eqb_spec d 1) as [Ed1|Ed1]; try lia;
    destruct (Nat.eqb_spec d n) as [Edn|Edn];
    destruct (Nat.eqb_spec n 1) as [En1|En1]; try lia; simpl;
    (split; [intros _; eexists; split; [reflexivity|split; simpl; lia]
            | intros Hno; try reflexivity; exfalso; apply Hno; lia])
    || (split; [intros [Ha Hb]; exfalso; lia | intros _; reflexivity]).
Qed.

Lemma sq_exp_dimension_two_up_witness :
  (exists K, sq_exp X_train_2d X_train_2d = Ok K /\ has_shape K 2 2) /\
  sq_exp x1_grid X_train_2d = Err ValueError.
Proof.
  split.
  - apply (proj1 (sq_exp_dimension_two_up X_train_2d X_train_2d 2 2 2
                    X_train_2d_shape X_train_2d_shape (Nat.le_refl 2))).
    split; left; reflexivity.
  - apply (proj2 (sq_exp_dimension_two_up x1_grid X_train_2d 4 2 2
                    (conj eq_refl eq_refl) X_train_2d_shape (Nat.le_refl 2))).
    intros [[H|H] _]; discriminate H.
Defined.

(** ** Further properties of the posterior cells *)

(** X3. The factorisation at the head of the posterior cells cannot fail on
    the jittered training kernel, duplicated training points or not: with a
    factorisation that handles every symmetric positive-definite array, each
    cell returns exactly what its posterior lines return. *)
Theorem posterior_cells_factor (inv cholesky : matrix -> result matrix)
        (x_samp x_s f_col : matrix) (f_flat : vector) (m d : nat) :
  cholesky_contract cholesky -> has_shape x_samp m d ->
  cell_posterior_2d inv cholesky x_samp f_flat x_s =
    posterior_2d inv x_samp f_flat x_s /\
  (d = 1%nat ->
   cell_posterior_1d inv cholesky x_samp f_col x_s =
     posterior_1d inv x_samp f_col x_s).
Proof.
  intros Hchol Hx. split.
  - apply (cell_posterior_2d_runs inv cholesky x_samp f_flat x_s m d Hchol Hx).
  - intros ->.
    apply (cell_posterior_1d_runs inv cholesky x_samp f_col x_s m Hchol Hx).
Qed.

Lemma posterior_cells_factor_witness :
  cell_posterior_2d inv_cofactor cholesky_ref X_dup_ex y_flat_ex X_query_ex =
    posterior_2d inv_cofactor X_dup_ex y_flat_ex X_query_ex /\
  cell_posterior_1d inv_cofactor cholesky_ref X_dup_ex y_train_ex X_query_ex =
    posterior_1d inv_cofactor X_dup_ex y_train_ex X_query_ex.
Proof.
  destruct (posterior_cells_factor inv_cofactor cholesky_ref X_dup_ex X_query_ex
              y_train_ex y_flat_ex 2 1 cholesky_ref_contract
              (conj eq_refl eq_refl)) as [H2 H1].
  split; [exact H2 | exact (H1 eq_refl)].
Defined.

(** X4. A training set in which two rows are the same point has a training
    kernel without inverse: the array that the posterior lines invert is the
    kernel itself, not the jittered one. *)
Theorem duplicate_point_no_inverse (x : matrix) (m d i j : nat) :
  has_shape x m d -> (i < m)%nat -> (j < m)%nat -> i <> j ->
  same_point d x i x j ->
  (forall K Ki, sq_exp2d x x = Ok K -> ~ is_inverse_of K Ki) /\
  (d = 1%nat -> forall K Ki, sq_exp x x = Ok K -> ~ is_inverse_of K Ki).
Proof.
  intros Hx Hi Hj Hne Hsame. split.
  - intros K Ki HK.
    destruct (sq_exp2d_table x x m m d Hx Hx) as (K' & HK' & [HK0 _] & Hit).
    rewrite HK in HK'. injection HK' as <-.
    exact (duplicate_point_singular d x m i j K Ki HK0 Hit Hi Hj Hne Hsame).
  - intros -> K Ki HK.
    destruct (sq_exp_table x x m m Hx Hx) as (K' & HK' & [HK0 _] & Hit).
    rewrite HK in HK'. injection HK' as <-.
    exact (duplicate_point_singular 1 x m i j K Ki HK0 Hit Hi Hj Hne Hsame).
Qed.

Lemma duplicate_point_no_inverse_witness :
  (forall K Ki, sq_exp2d X_dup_ex X_dup_ex = Ok K -> ~ is_inverse_of K Ki) /\
  (forall K Ki, sq_exp X_dup_ex X_dup_ex = Ok K -> ~ is_inverse_of K Ki).
Proof.
  destruct (duplicate_point_no_inverse X_dup_ex 2 1 0 1 (conj eq_refl eq_refl)
              (Nat.lt_0_2) (Nat.lt_succ_diag_r 1) (O_S 0)
              (fun k _ => eq_refl)) as [H2 H1].
  split; [exact H2 | exact (H1 eq_refl)].
Defined.

(** X5. For a covariance with [sig11 > 0], [sig12 = sig21] and a
    non-negative determinant, the conditional of the bivariate Gaussian is
    computed, its variance does not depend on the observed [x1], and it lies
    between 0 and [sig22]. *)
Theorem conditional_variance (mu1 mu2 sig11 sig12 sig22 x1 : R) :
  0 < sig11 -> 0 <= sig11 * sig22 - sig12 * sig12 ->
  exists mu_2g1 sig_2g1,
    conditional mu1 mu2 sig11 sig12 sig12 sig22 x1 = Some (mu_2g1, sig_2g1) /\
    0 <= sig_2g1 <= sig22 /\
    (forall x1', exists mu', conditional mu1 mu2 sig11 sig12 sig12 sig22 x1' =
                               Some (mu', sig_2g1)).
Proof.
  intros Hpos Hdet. unfold conditional.
  destruct (Req_dec_T sig11 0) as [Hz|Hnz]; [lra|].
  eexists. eexists. split; [reflexivity|]. split.
  - assert (Hq : sig12 * 1 / sig11 * sig12 = sig12 * sig12 / sig11)
      by (field; exact Hnz).
    rewrite Hq.
    assert (Hsq : 0 <= sig12 * sig12 / sig11).
    { apply Rmult_le_pos; [nra | left; apply Rinv_0_lt_compat; exact Hpos]. }
    assert (Hle : sig12 * sig12 / sig11 <= sig22).
    { apply (Rmult_le_reg_r sig11); [exact Hpos|].
      replace (sig12 * sig12 / sig11 * sig11) with (sig12 * sig12)
        by (field; exact Hnz). lra. }
    lra.
  - intros x1'. eexists. reflexivity.
Qed.

Lemma conditional_variance_witness :
  exists mu_2g1 sig_2g1,
    conditional 0 0 3.0 (-2.0) (-2.0) 4.0 0 = Some (mu_2g1, sig_2g1) /\
    0 <= sig_2g1 <= 4.0 /\
    (forall x1', exists mu', conditional 0 0 3.0 (-2.0) (-2.0) 4.0 x1' =
                               Some (mu', sig_2g1)).
Proof.
  apply (conditional_variance 0 0 3.0 (-2.0) 4.0 0); lra.
Defined.

(** X6. With a single training point the posterior at a query point is the
    conditional of the bivariate Gaussian with unit variances and the kernel
    between the two points as covariance, observed at the training value. *)
Theorem single_point_posterior (inv : matrix -> result matrix)
        (x_samp f_samp x_s Ki : matrix) (n q : nat) :
  has_shape x_samp 1 1 -> has_shape f_samp 1 1 -> has_shape x_s n 1 ->
  inverts inv (sq_exp x_samp x_samp) Ki -> (q < n)%nat ->
  exists mu sig,
    posterior_1d inv x_samp f_samp x_s = Ok (mu, sig) /\
    conditional 0 0 1 (k_se 1 x_samp 0 x_s q) (k_se 1 x_samp 0 x_s q) 1
                (item f_samp 0 0) =
    Some (item mu q 0, item sig q q).
Proof.
  intros Hx Hf Hs Hinv Hq.
  destruct (posterior_1d_run inv x_samp f_samp x_s Ki 1 n Hx Hf Hs Hinv)
    as (mu & sig & Hrun & _ & _ & Hmean & Hcov).
  pose proof (inverts_table_1d inv x_samp Ki 1 Hx Hinv 0%nat 0%nat
                Nat.lt_0_1 Nat.lt_0_1) as H00.
  unfold delta, kernel_table in H00. simpl in H00. rewrite k_se_diag in H00.
  exists mu, sig. split; [exact Hrun|].
  rewrite (Hmean q Hq), (Hcov q q Hq Hq).
  unfold conditional, gp_mean, gp_cov, kernel_table. simpl.
  rewrite k_se_diag.
  destruct (Req_dec_T 1 0) as [Hz|_]; [lra|].
  assert (HKi : item Ki 0 0 = 1) by lra. rewrite HKi.
  f_equal. f_equal; field.
Qed.

Lemma cofactor_inverts_single x :
  has_shape x 1 1 -> exists Ki, inverts inv_cofactor (sq_exp x x) Ki.
Proof.
  intros Hx.
  destruct (sq_exp_table x x 1 1 Hx Hx) as (K & HK & [H0 H1] & Hit).
  pose proof (Hit 0%nat 0%nat Nat.lt_0_1 Nat.lt_0_1) as H00.
  unfold kernel_table in H00. rewrite k_se_diag in H00.
  destruct K as [r c f]. simpl in *. subst r c.
  exists (mkmat 1 1 (fun _ _ => / f 0%nat 0%nat)), (mkmat 1 1 f).
  split; [exact HK|]. split.
  - unfold inv_cofactor. simpl.
    destruct (Req_dec_T (f 0%nat 0%nat) 0) as [Hz|_]; [lra | reflexivity].
  - split; [split; reflexivity|]. split; [split; reflexivity|].
    simpl. intros i j Hi Hj. replace i with O by lia. replace j with O by lia.
    unfold delta. simpl. rewrite H00. field.
Qed.

Lemma single_point_posterior_witness :
  exists Ki mu sig,
    inverts inv_cofactor (sq_exp X_query_ex X_query_ex) Ki /\
    posterior_1d inv_cofactor X_query_ex y_short_ex X_train_ex = Ok (mu, sig) /\
    conditional 0 0 1 (k_se 1 X_query_ex 0 X_train_ex 1)
                (k_se 1 X_query_ex 0 X_train_ex 1) 1 (item y_short_ex 0 0) =
    Some (item mu 1 0, item sig 1 1).
Proof.
  destruct (cofactor_inverts_single X_query_ex (conj eq_refl eq_refl)) as [Ki HKi].
  destruct (single_point_posterior inv_cofactor X_query_ex y_short_ex X_train_ex
              Ki 2 1 (conj eq_refl eq_refl) (conj eq_refl eq_refl)
              X_train_ex_shape HKi (Nat.lt_succ_diag_r 1))
    as (mu & sig & Hrun & Hcond).
  exists Ki, mu, sig. split; [exact HKi|]. split; [exact Hrun | exact Hcond].
Defined.

(** ** The cells with the inputs they build *)

(** X7. The one-dimensional cell run on its own training values,
    [true_function_1d(x_samp)], raises no shape error and returns a mean of
    shape (n, 1) and a covariance of shape (n, n), whether or not a query
    point meets a training point; and at every query point that is training
    point i its mean is [sin (x_i + 1e-10)] and its variance is 0. *)
Theorem written_cell_1d_interpolates (inv cholesky : matrix -> result matrix)
        (x_samp x_s Ki : matrix) (m n : nat) :
  cholesky_contract cholesky ->
  has_shape x_samp m 1 -> has_shape x_s n 1 ->
  inverts inv (sq_exp x_samp x_samp) Ki ->
  exists mu sig,
    written_cell_1d inv cholesky x_samp x_s = Ok (mu, sig) /\
    has_shape mu n 1 /\ has_shape sig n n /\
    forall i q, (i < m)%nat -> (q < n)%nat -> same_point 1 x_s q x_samp i ->
      item mu q 0 = sin (item x_samp i 0 + 1e-10) /\
      item sig q q = 0.
Proof.
  intros Hchol Hx Hs Hinv.
  assert (Hf : has_shape (true_function_1d x_samp) m 1).
  { destruct Hx as [H0 H1]. split; simpl; assumption. }
  destruct (posterior_1d_run inv x_samp (true_function_1d x_samp) x_s Ki m n
              Hx Hf Hs Hinv)
    as (mu & sig & Hrun & Hmu & Hsig & Hmean & Hcov).
  pose proof (inverts_table_1d inv x_samp Ki m Hx Hinv) as Htab.
  exists mu, sig. unfold written_cell_1d.
  rewrite (cell_posterior_1d_runs inv cholesky x_samp _ x_s m Hchol Hx).
  split; [exact Hrun|]. split; [exact Hmu|]. split; [exact Hsig|].
  intros i q Hi Hq Hsame. split.
  - rewrite (Hmean q Hq).
    rewrite (posterior_mean_at_training m 1 x_samp x_s (item Ki) Htab
               (fun l => item (true_function_1d x_samp) l 0%nat) i q Hi Hsame).
    reflexivity.
  - rewrite (Hcov q q Hq Hq).
    apply (posterior_cov_at_training m 1 x_samp x_s (item Ki) Htab i q Hi Hsame).
Qed.

Lemma written_cell_1d_interpolates_witness :
  exists Ki mu sig,
    inverts inv_cofactor (sq_exp X_train_ex X_train_ex) Ki /\
    written_cell_1d inv_cofactor cholesky_ref X_train_ex X_train_ex = Ok (mu, sig) /\
    has_shape mu 2 1 /\ has_shape sig 2 2 /\
    forall i q, (i < 2)%nat -> (q < 2)%nat ->
      same_point 1 X_train_ex q X_train_ex i ->
      item mu q 0 = sin (item X_train_ex i 0 + 1e-10) /\
      item sig q q = 0.
Proof.
  destruct (cofactor_inverts_1d X_train_ex X_train_ex_shape X_train_ex_distinct)
    as [Ki HKi].
  destruct (written_cell_1d_interpolates inv_cofactor cholesky_ref
              X_train_ex X_train_ex Ki 2 2 cholesky_ref_contract
              X_train_ex_shape X_train_ex_shape HKi)
    as (mu & sig & H).
  exists Ki, mu, sig. split; [exact HKi | exact H].
Defined.

Lemma grid_points_items x n :
  len x = n ->
  exists G, grid_points x = Ok G /\ has_shape G (n * n) 2 /\
    forall t, item G t 0 = vitem x (t mod n) /\ item G t 1 = vitem x (t / n).
Proof.
  intros Hn. unfold grid_points, meshgrid, vstack, flatten. simpl.
  rewrite Nat.eqb_refl. simpl. rewrite Hn.
  eexists. split; [reflexivity|]. split; [split; reflexivity|].
  intros t. simpl. split; reflexivity.
Qed.

(** X9. The query grid built from an axis of n values has n * n rows of
    dimension 2; row [i * n + j] is the pair of axis value j and axis value
    i, and when the axis values are pairwise distinct no point of the grid is
    repeated. *)
Theorem grid_points_enumerate (x : vector) (n : nat) :
  len x = n ->
  exists G, grid_points x = Ok G /\ has_shape G (n * n) 2 /\
    (forall i j, (i < n)%nat -> (j < n)%nat ->
       item G (i * n + j) 0 = vitem x j /\ item G (i * n + j) 1 = vitem x i) /\
    ((forall a b, (a < n)%nat -> (b < n)%nat -> vitem x a = vitem x b -> a = b) ->
     forall s t, (s < n * n)%nat -> (t < n * n)%nat ->
       same_point 2 G s G t -> s = t).
Proof.
  intros Hn.
  destruct (grid_points_items x n Hn) as (G & HG & Hsh & Hit).
  exists G. split; [exact HG|]. split; [exact Hsh|]. split.
  - intros i j Hi Hj. destruct (Hit (i * n + j)%nat) as [H0 H1].
    rewrite H0, H1, (Nat.add_comm (i * n) j).
    rewrite Nat.Div0.mod_add, Nat.mod_small by lia.
    rewrite Nat.div_add, Nat.div_small by lia.
    split; reflexivity.
  - intros Hinj s t Hs Ht Hsame.
    assert (Hn0 : n <> 0%nat) by lia.
    pose proof (Hsame 0%nat ltac:(lia)) as E0.
    pose proof (Hsame 1%nat ltac:(lia)) as E1.
    rewrite (proj1 (Hit s)), (proj1 (Hit t)) in E0.
    rewrite (proj2 (Hit s)), (proj2 (Hit t)) in E1.
    apply Hinj in E0; [|apply Nat.mod_upper_bound; lia|apply Nat.mod_upper_bound; lia].
    apply Hinj in E1; [|apply Nat.Div0.div_lt_upper_bound; lia
                       |apply Nat.Div0.div_lt_upper_bound; lia].
    rewrite (Nat.div_mod_eq s n), (Nat.div_mod_eq t n), E0, E1. reflexivity.
Qed.

Lemma grid_points_enumerate_witness :
  exists G, grid_points (linspace (-5) 5 20) = Ok G /\ has_shape G (20 * 20) 2 /\
    (forall i j, (i < 20)%nat -> (j < 20)%nat ->
       item G (i * 20 + j) 0 = vitem (linspace (-5) 5 20) j /\
       item G (i * 20 + j) 1 = vitem (linspace (-5) 5 20) i) /\
    ((forall a b, (a < 20)%nat -> (b < 20)%nat ->
        vitem (linspace (-5) 5 20) a = vitem (linspace (-5) 5 20) b -> a = b) ->
     forall s t, (s < 20 * 20)%nat -> (t < 20 * 20)%nat ->
       same_point 2 G s G t -> s = t).
Proof.
  apply (grid_points_enumerate (linspace (-5) 5 20) 20). reflexivity.
Defined.

Lemma true_function_columns x m :
  has_shape x m 2 ->
  exists c0 c1 f, column x 0 = Some c0 /\ column x 1 = Some c1 /\
    true_function c0 c1 = Ok f /\ len f = m /\
    forall i, (i < m)%nat -> vitem f i = sin (item x i 0) + sin (item x i 1).
Proof.
  intros [H0 H1]. unfold column. rewrite H1. simpl.
  eexists. eexists. eexists. split; [reflexivity|]. split; [reflexivity|].
  unfold true_function, vadd, vmap. simpl. rewrite broadcast_dim_refl. simpl.
  split; [reflexivity|]. split; [exact H0|].
  intros i Hi. simpl. rewrite H0, !bidx_lt by assumption. reflexivity.
Qed.

(** X10. The two-dimensional cell run on training points of dimension 2,
    with its own training values and the grid built from an axis of n
    values, raises no error: it returns n * n means and an (n * n, n * n)
    covariance; at a grid point that is training point i the mean is
    [sin] of its first coordinate plus [sin] of its second, and the variance
    is 0. *)
Theorem written_cell_2d_runs (inv cholesky : matrix -> result matrix)
        (x_samp Ki : matrix) (x_points : vector) (m n : nat) :
  cholesky_contract cholesky ->
  has_shape x_samp m 2 -> len x_points = n ->
  inverts inv (sq_exp2d x_samp x_samp) Ki ->
  exists mu sig,
    written_cell_2d inv cholesky x_samp x_points = Some (Ok (mu, sig)) /\
    len mu = (n * n)%nat /\ has_shape sig (n * n) (n * n) /\
    forall i a b, (i < m)%nat -> (a < n)%nat -> (b < n)%nat ->
      vitem x_points b = item x_samp i 0 ->
      vitem x_points a = item x_samp i 1 ->
      vitem mu (a * n + b) = sin (item x_samp i 0) + sin (item x_samp i 1) /\
      item sig (a * n + b) (a * n + b) = 0.
Proof.
  intros Hchol Hx Hn Hinv.
  destruct (true_function_columns x_samp m Hx)
    as (c0 & c1 & f & Hc0 & Hc1 & Hf & Hlen & Hfit).
  destruct (grid_points_enumerate x_points n Hn) as (G & HG & HshG & HitG & _).
  destruct (posterior_2d_run inv x_samp f G Ki m (n * n) 2 Hx Hlen HshG Hinv)
    as (mu & sig & Hrun & Hmu & Hsig & Hmean & Hcov).
  pose proof (inverts_table_2d inv x_samp Ki m 2 Hx Hinv) as Htab.
  exists mu, sig. unfold written_cell_2d. rewrite Hc0, Hc1, Hf, HG. simpl.
  rewrite (cell_posterior_2d_runs inv cholesky x_samp f G m 2 Hchol Hx), Hrun.
  split; [reflexivity|]. split; [exact Hmu|]. split; [exact Hsig|].
  intros i a b Hi Ha Hb Eb Ea.
  assert (Hq : (a * n + b < n * n)%nat) by nia.
  assert (Hsame : same_point 2 G (a * n + b) x_samp i).
  { destruct (HitG a b Ha Hb) as [G0 G1].
    intros k Hk. destruct k as [|[|k]]; [congruence|congruence|lia]. }
  split.
  - rewrite (Hmean _ Hq).
    rewrite (posterior_mean_at_training m 2 x_samp G (item Ki) Htab
               (vitem f) i _ Hi Hsame).
    apply Hfit. exact Hi.
  - rewrite (Hcov _ _ Hq Hq).
    apply (posterior_cov_at_training m 2 x_samp G (item Ki) Htab i _ Hi Hsame).
Qed.

Lemma written_cell_2d_runs_witness :
  exists Ki mu sig,
    inverts inv_cofactor (sq_exp2d X_train_2d X_train_2d) Ki /\
    written_cell_2d inv_cofactor cholesky_ref X_train_2d (linspace (-5) 5 20) =
      Some (Ok (mu, sig)) /\
    len mu = (20 * 20)%nat /\ has_shape sig (20 * 20) (20 * 20) /\
    forall i a b, (i < 2)%nat -> (a < 20)%nat -> (b < 20)%nat ->
      vitem (linspace (-5) 5 20) b = item X_train_2d i 0 ->
      vitem (linspace (-5) 5 20) a = item X_train_2d i 1 ->
      vitem mu (a * 20 + b) =
        sin (item X_train_2d i 0) + sin (item X_train_2d i 1) /\
      item sig (a * 20 + b) (a * 20 + b) = 0.
Proof.
  destruct (cofactor_inverts_2d X_train_2d 2 X_train_2d_shape X_train_2d_distinct)
    as [Ki HKi].
  destruct (written_cell_2d_runs inv_cofactor cholesky_ref X_train_2d Ki
              (linspace (-5) 5 20) 2 20 cholesky_ref_contract
              X_train_2d_shape eq_refl HKi)
    as (mu & sig & H).
  exists Ki, mu, sig. split; [exact HKi | exact H].
Defined.

(** ** The grid point of largest uncertainty *)

Lemma rmax_ge n f i : (i <= n)%nat -> f i <= rmax n f.
Proof.
  induction n as [|n IH]; intros Hi; simpl.
  - replace i with O by lia. lra.
  - destruct (Nat.eq_dec i (S n)) as [->|Hne]; [apply Rmax_r|].
    apply Rle_trans with (rmax n f); [apply IH; lia | apply Rmax_l].
Qed.

Lemma rmax_attained n f : exists i, (i <= n)%nat /\ rmax n f = f i.
Proof.
  induction n as [|n [i [Hi IH]]]; simpl.
  - exists O. split; [lia|reflexivity].
  - destruct (Rle_dec (rmax n f) (f (S n))) as [Hle|Hgt].
    + exists (S n). split; [lia|]. apply Rmax_right. exact Hle.
    + exists i. split; [lia|]. rewrite Rmax_left by lra. exact IH.
Qed.

Lemma amax_spec A r c :
  has_shape A r c -> (1 <= r)%nat -> (1 <= c)%nat ->
  exists top, amax A = Some top /\
    (forall i j, (i < r)%nat -> (j < c)%nat -> item A i j <= top) /\
    exists i j, (i < r)%nat /\ (j < c)%nat /\ item A i j = top.
Proof.
  intros [H0 H1] Hr Hc. unfold amax. rewrite H0, H1.
  destruct (Nat.eqb_spec r 0); [lia|]. destruct (Nat.eqb_spec c 0); [lia|]. simpl.
  eexists. split; [reflexivity|]. split.
  - intros i j Hi Hj.
    apply Rle_trans with (rmax (c - 1) (fun j => item A i j)).
    + apply (rmax_ge (c - 1) (fun j => item A i j)). lia.
    + apply (rmax_ge (r - 1) (fun i => rmax (c - 1) (fun j => item A i j))). lia.
  - destruct (rmax_attained (r - 1) (fun i => rmax (c - 1) (fun j => item A i j)))
      as (i & Hi & Ei).
    destruct (rmax_attained (c - 1) (fun j => item A i j)) as (j & Hj & Ej).
    exists i, j. split; [lia|]. split; [lia|]. rewrite Ei, Ej. reflexivity.
Qed.

Lemma where_eq_In A v r c :
  In (r, c) (where_eq A v) <->
  (r < shape0 A)%nat /\ (c < shape1 A)%nat /\ item A r c = v.
Proof.
  unfold where_eq. rewrite in_flat_map. split.
  - intros (i & Hi & Hin). apply in_map_iff in Hin.
    destruct Hin as (j & Hpair & Hj). injection Hpair as <- <-.
    apply filter_In in Hj. destruct Hj as [Hj Heq].
    apply in_seq in Hi. apply in_seq in Hj.
    destruct (Req_dec_T (item A i j) v); [|discriminate].
    repeat split; try lia. assumption.
  - intros (Hr & Hc & Heq). exists r. split; [apply in_seq; lia|].
    apply in_map_iff. exists c. split; [reflexivity|].
    apply filter_In. split; [apply in_seq; lia|].
    destruct (Req_dec_T (item A r c) v); [reflexivity|contradiction].
Qed.

Lemma take_all_map v idx :
  (forall i, In i idx -> (i < len v)%nat) ->
  take_all v idx = Some (map (vitem v) idx).
Proof.
  induction idx as [|i rest IH]; intros H; simpl; [reflexivity|].
  unfold take. destruct (Nat.ltb_spec i (len v)) as [_|Hge].
  - rewrite IH by (intros; apply H; right; assumption). reflexivity.
  - exfalso. specialize (H i (or_introl eq_refl)). lia.
Qed.

(** X11. For an n by n table of uncertainties and an axis of n values, the
    last cell returns, for every position (r, c) of the largest uncertainty,
    the axis value of column c as first coordinate and the first axis value
    as second coordinate, whatever the row r. *)
Theorem next_point_coordinates (x_points : vector) (uncertainty : matrix) (n : nat) :
  has_shape uncertainty n n -> len x_points = n -> (1 <= n)%nat ->
  exists found,
    next_point x_points uncertainty =
      Some (map (fun rc => vitem x_points (snd rc)) found,
            map (fun rc => vitem x_points 0) found) /\
    found <> [] /\
    forall r c, In (r, c) found <->
      (r < n)%nat /\ (c < n)%nat /\
      forall i j, (i < n)%nat -> (j < n)%nat ->
        item uncertainty i j <= item uncertainty r c.
Proof.
  intros Hsh Hlen Hn.
  destruct (amax_spec uncertainty n n Hsh Hn Hn)
    as (top & Htop & Hub & (i0 & j0 & Hi0 & Hj0 & E0)).
  destruct Hsh as [H0 H1].
  exists (where_eq uncertainty top).
  assert (Hin : forall r c, In (r, c) (where_eq uncertainty top) ->
                 (r < n)%nat /\ (c < n)%nat).
  { intros r c H. apply where_eq_In in H. rewrite H0, H1 in H. lia. }
  split; [|split].
  - unfold next_point. rewrite Htop. simpl.
    rewrite (take_all_map _ (map snd (where_eq uncertainty top))).
    2:{ intros c Hc. apply in_map_iff in Hc. destruct Hc as ([r c'] & <- & Hrc).
        simpl. destruct (Hin r c' Hrc). rewrite Hlen. nia. }
    rewrite (take_all_map _ (map fst (where_eq uncertainty top))).
    2:{ intros r Hr. apply in_map_iff in Hr. destruct Hr as ([r' c] & <- & Hrc).
        simpl. destruct (Hin r' c Hrc). rewrite Hlen. nia. }
    rewrite !map_map. f_equal. f_equal.
    + apply map_ext_in. intros [r c] Hrc. simpl. destruct (Hin r c Hrc).
      rewrite Hlen, Nat.mod_small by lia. reflexivity.
    + apply map_ext_in. intros [r c] Hrc. simpl. destruct (Hin r c Hrc).
      rewrite Hlen, Nat.div_small by lia. reflexivity.
  - intros Hnil.
    assert (H : In (i0, j0) (where_eq uncertainty top)).
    { apply where_eq_In. rewrite H0, H1. auto. }
    rewrite Hnil in H. exact H.
  - intros r c. rewrite where_eq_In, H0, H1. split.
    + intros (Hr & Hc & E). split; [exact Hr|]. split; [exact Hc|].
      intros i j Hi Hj. rewrite E. apply Hub; assumption.
    + intros (Hr & Hc & Hall). split; [exact Hr|]. split; [exact Hc|].
      apply Rle_antisym; [apply Hub; assumption|].
      rewrite <- E0. apply Hall; assumption.
Qed.

Lemma next_point_coordinates_witness :
  exists found,
    next_point (linspace (-5) 5 2) uncertainty_ex =
      Some (map (fun rc => vitem (linspace (-5) 5 2) (snd rc)) found,
            map (fun rc => vitem (linspace (-5) 5 2) 0) found) /\
    found <> [] /\
    forall r c, In (r, c) found <->
      (r < 2)%nat /\ (c < 2)%nat /\
      forall i j, (i < 2)%nat -> (j < 2)%nat ->
        item uncertainty_ex i j <= item uncertainty_ex r c.
Proof.
  apply (next_point_coordinates (linspace (-5) 5 2) uncertainty_ex 2);
    [split; reflexivity | reflexivity | lia].
Defined.

(** ** The survival-analysis notebook: intervals, deaths and exposure *)

Lemma wrap64_small z : (- 2 ^ 63 <= z < 2 ^ 63)%Z -> wrap64 z = z.
Proof.
  intros H. unfold wrap64. rewrite Z.mod_small by lia. lia.
Qed.

Lemma fold_max_spec l a :
  (a <= fold_left Z.max l a)%Z /\
  (forall x, In x l -> (x <= fold_left Z.max l a)%Z) /\
  (fold_left Z.max l a = a \/ In (fold_left Z.max l a) l).
Proof.
  revert a. induction l as [|b l IH]; intros a; simpl.
  - split; [lia|]. split; [intros x []|left; reflexivity].
  - destruct (IH (Z.max a b)) as (H1 & H2 & H3). split; [lia|]. split.
    + intros x [<-|Hx]; [lia | apply H2; exact Hx].
    + destruct H3 as [E|Hin]; [|right; right; exact Hin].
      destruct (Z.max_spec a b) as [[_ Em]|[_ Em]]; rewrite Em in E |- *.
      * right. left. symmetry. exact E.
      * left. exact E.
Qed.

Lemma time_max_spec df :
  df <> [] ->
  exists tmax, time_max df = Some tmax /\
    (forall p, In p df -> (time p <= tmax)%Z) /\
    exists p, In p df /\ time p = tmax.
Proof.
  destruct df as [|p rest]; [congruence|]. intros _. simpl.
  destruct (fold_max_spec (map time rest) (time p)) as (H1 & H2 & H3).
  eexists. split; [reflexivity|]. split.
  - intros q [<-|Hq]; [exact H1 | apply H2, in_map; exact Hq].
  - destruct H3 as [E|Hin].
    + exists p. split; [left; reflexivity | symmetry; exact E].
    + apply in_map_iff in Hin. destruct Hin as (q & Eq & Hq).
      exists q. split; [right; exact Hq | exact Eq].
Qed.

Lemma arange_length stop :
  length (arange 0 stop 3) = Z.to_nat ((stop + 2) / 3)%Z.
Proof.
  unfold arange. rewrite length_map, length_seq. f_equal. f_equal. lia.
Qed.

Lemma nth_map_seq (f : nat -> Z) n k d :
  (k < n)%nat -> nth k (map f (seq 0 n)) d = f k.
Proof.
  intros Hk.
  rewrite (nth_indep _ d (f O)) by (rewrite length_map, length_seq; exact Hk).
  rewrite (map_nth f), seq_nth by exact Hk. reflexivity.
Qed.

Lemma arange_nth stop k :
  (k < length (arange 0 stop 3))%nat ->
  nth k (arange 0 stop 3) 0%Z = (3 * Z.of_nat k)%Z.
Proof.
  intros Hk. unfold arange in *. rewrite length_map, length_seq in Hk.
  rewrite nth_map_seq by exact Hk. lia.
Qed.

Lemma interval_bounds_spec df tmax :
  time_max df = Some tmax -> (0 <= tmax < 2 ^ 62)%Z ->
  exists bounds, interval_bounds df = Some bounds /\
    length bounds = Z.to_nat (tmax / 3 + 2)%Z /\
    (forall k, (k < length bounds)%nat -> nth k bounds 0%Z = (3 * Z.of_nat k)%Z) /\
    n_intervals bounds = (tmax / 3 + 1)%Z.
Proof.
  intros Hmax Ht. unfold interval_bounds. rewrite Hmax.
  unfold interval_length.
  rewrite (wrap64_small (tmax + 3)) by lia.
  rewrite (wrap64_small (tmax + 3 + 1)) by lia.
  eexists. split; [reflexivity|].
  assert (Hlen : length (arange 0 (tmax + 3 + 1) 3) = Z.to_nat (tmax / 3 + 2)%Z).
  { rewrite arange_length. f_equal.
    replace (tmax + 3 + 1 + 2)%Z with (tmax + 2 * 3)%Z by lia.
    rewrite Z.div_add by lia. reflexivity. }
  split; [exact Hlen|]. split; [intros k Hk; apply arange_nth; exact Hk|].
  unfold n_intervals. rewrite Hlen.
  assert (0 <= tmax / 3)%Z by (apply Z.div_pos; lia). lia.
Qed.

Lemma last_period_div t : last_period t = ((t - 1) / 3)%Z.
Proof.
  unfold last_period, interval_length. symmetry. apply Int_part_spec.
  pose proof (Z.div_mod (t - 1) 3 ltac:(lia)) as Hdm.
  pose proof (Z.mod_pos_bound (t - 1) 3 ltac:(lia)) as Hmod.
  set (q := ((t - 1) / 3)%Z) in *.
  assert (H1 : (3 * q <= t - 1)%Z) by lia.
  assert (H2 : (t <= 3 * q + 3)%Z) by lia.
  apply IZR_le in H1. apply IZR_le in H2.
  rewrite minus_IZR, mult_IZR in H1. rewrite plus_IZR, mult_IZR in H2.
  split.
  - apply (Rmult_lt_reg_r 3); [lra|].
    replace (((IZR t - 0.01) / 3 - 1) * 3) with (IZR t - 0.01 - 3) by field. lra.
  - apply (Rmult_le_reg_r 3); [lra|].
    replace ((IZR t - 0.01) / 3 * 3) with (IZR t - 0.01) by field. lra.
Qed.

Lemma norm_index_inside n k :
  (0 <= k < Z.of_nat n)%Z -> norm_index n k = Some (Z.to_nat k).
Proof.
  intros H. unfold norm_index.
  destruct (Z.leb_spec 0 k); [|lia]. destruct (Z.ltb_spec k (Z.of_nat n)); [|lia].
  reflexivity.
Qed.


Lemma last_period_inside t tmax :
  (1 <= t <= tmax)%Z ->
  (0 <= last_period t < tmax / 3 + 1)%Z /\
  (3 * last_period t < t <= 3 * last_period t + 3)%Z.
Proof.
  intros Ht. rewrite last_period_div.
  pose proof (Z.div_mod (t - 1) 3 ltac:(lia)) as Hdm.
  pose proof (Z.mod_pos_bound (t - 1) 3 ltac:(lia)) as Hmod.
  assert (H0 : (0 <= (t - 1) / 3)%Z) by (apply Z.div_pos; lia).
  assert (H1 : ((t - 1) / 3 <= tmax / 3)%Z) by (apply Z.div_le_mono; lia).
  lia.
Qed.

Lemma removelast_nth (l : list Z) j :
  (S j < length l)%nat -> nth j (removelast l) 0%Z = nth j l 0%Z.
Proof.
  intros Hj. rewrite removelast_firstn_len, nth_firstn.
  destruct (Nat.ltb_spec j (Nat.pred (length l))); [reflexivity|lia].
Qed.

Lemma removelast_length (l : list Z) : length (removelast l) = (length l - 1)%nat.
Proof.
  rewrite removelast_firstn_len, length_firstn. lia.
Qed.

(** What the interval cell leaves for the cells after it. *)
Lemma preprocess_context df :
  df <> [] -> (forall p, In p df -> (0 <= time p < 2 ^ 62)%Z) ->
  exists tmax bounds n,
    time_max df = Some tmax /\ interval_bounds df = Some bounds /\
    (forall p, In p df -> (time p <= tmax)%Z) /\
    (0 <= tmax < 2 ^ 62)%Z /\
    Z.of_nat n = (tmax / 3 + 1)%Z /\ (1 <= n)%nat /\
    length bounds = S n /\ n_intervals bounds = Z.of_nat n /\
    (forall k, (k <= n)%nat -> nth k bounds 0%Z = (3 * Z.of_nat k)%Z) /\
    length (removelast bounds) = n /\
    (forall j, (j < n)%nat -> nth j (removelast bounds) 0%Z = (3 * Z.of_nat j)%Z).
Proof.
  intros Hne Htimes.
  destruct (time_max_spec df Hne) as (tmax & Hmax & Hle & (p0 & Hp0 & E0)).
  assert (Ht : (0 <= tmax < 2 ^ 62)%Z) by (rewrite <- E0; apply Htimes; exact Hp0).
  destruct (interval_bounds_spec df tmax Hmax Ht) as (bounds & Hb & Hlen & Hnth & Hn).
  assert (Hq : (0 <= tmax / 3)%Z) by (apply Z.div_pos; lia).
  exists tmax, bounds, (Z.to_nat (tmax / 3 + 1)).
  assert (HlenS : length bounds = S (Z.to_nat (tmax / 3 + 1))) by lia.
  split; [exact Hmax|]. split; [exact Hb|]. split; [exact Hle|].
  split; [exact Ht|]. split; [lia|]. split; [lia|]. split; [exact HlenS|].
  split; [lia|]. split; [intros k Hk; apply Hnth; lia|].
  split; [rewrite removelast_length; lia|].
  intros j Hj. rewrite removelast_nth by lia. apply Hnth. lia.
Qed.

(** X12. For a non-empty frame of times between 0 and 2^62, the interval
    bounds are 0, 3, 6, ..., there is one more bound than intervals, and
    every observed time is strictly below the last bound. *)
Theorem intervals_cover (df : list patient) :
  df <> [] -> (forall p, In p df -> (0 <= time p < 2 ^ 62)%Z) ->
  exists bounds, interval_bounds df = Some bounds /\
    Z.of_nat (length bounds) = (n_intervals bounds + 1)%Z /\
    (1 <= n_intervals bounds)%Z /\
    (forall k, (k < length bounds)%nat -> nth k bounds 0%Z = (3 * Z.of_nat k)%Z) /\
    (forall p, In p df -> (time p < interval_length * n_intervals bounds)%Z).
Proof.
  intros Hne Htimes.
  destruct (preprocess_context df Hne Htimes)
    as (tmax & bounds & n & _ & Hb & Hle & Ht & Hn & Hn1 & Hlen & Hni & Hnth & _).
  exists bounds. split; [exact Hb|]. split; [lia|]. split; [lia|].
  split; [intros k Hk; apply Hnth; lia|].
  intros p Hp. specialize (Hle p Hp). unfold interval_length. rewrite Hni, Hn.
  pose proof (Z.div_mod tmax 3 ltac:(lia)).
  pose proof (Z.mod_pos_bound tmax 3 ltac:(lia)). lia.
Qed.

Lemma df_ex_times : forall p, In p df_ex -> (1 <= time p < 2 ^ 62)%Z.
Proof.
  intros p [<-|[<-|[<-|[]]]]; simpl; lia.
Qed.

Lemma df_ex_nonempty : df_ex <> [].
Proof. discriminate. Qed.

Lemma df_ex_times_short : forall p, In p df_ex -> (1 <= time p < 2 ^ 32)%Z.
Proof.
  intros p [<-|[<-|[<-|[]]]]; simpl; lia.
Qed.

Lemma times_below_2_32 df :
  (forall p, In p df -> (1 <= time p < 2 ^ 32)%Z) ->
  forall p, In p df -> (1 <= time p < 2 ^ 62)%Z.
Proof. intros H p Hp. specialize (H p Hp). lia. Qed.

Lemma times_from_one df :
  (forall p, In p df -> (1 <= time p < 2 ^ 62)%Z) ->
  forall p, In p df -> (0 <= time p < 2 ^ 62)%Z.
Proof. intros H p Hp. specialize (H p Hp). lia. Qed.

Lemma intervals_cover_witness :
  exists bounds, interval_bounds df_ex = Some bounds /\
    Z.of_nat (length bounds) = (n_intervals bounds + 1)%Z /\
    (1 <= n_intervals bounds)%Z /\
    (forall k, (k < length bounds)%nat -> nth k bounds 0%Z = (3 * Z.of_nat k)%Z) /\
    (forall p, In p df_ex -> (time p < interval_length * n_intervals bounds)%Z).
Proof.
  apply (intervals_cover df_ex df_ex_nonempty (times_from_one df_ex df_ex_times)).
Defined.

(** The column that the cells index for a patient whose time is at least 1. *)
Lemma last_period_column n tmax t :
  Z.of_nat n = (tmax / 3 + 1)%Z -> (1 <= t <= tmax)%Z ->
  norm_index n (last_period t) = Some (Z.to_nat (last_period t)) /\
  norm_index (S n) (last_period t) = Some (Z.to_nat (last_period t)) /\
  (Z.to_nat (last_period t) < n)%nat.
Proof.
  intros Hn Ht. destruct (last_period_inside t tmax Ht) as [Hin _].
  split; [apply norm_index_inside; lia|].
  split; [apply norm_index_inside; lia|]. lia.
Qed.

(** X13. For a non-empty frame of times between 1 and 2^32 the death
    indicator is built without error; the row of a patient holds its event
    in the column of its last period, the interval (3 L, 3 L + 3] that
    contains its time, and 0 elsewhere, so that the row sums to the event.
    Below 2^32 the binary64 computation of the last period gives the exact
    floor, see [last_period]. *)
Theorem death_indicator (df : list patient) :
  df <> [] -> (forall p, In p df -> (1 <= time p < 2 ^ 32)%Z) ->
  exists bounds D,
    interval_bounds df = Some bounds /\ death df bounds = Some D /\
    has_shape D (length df) (Z.to_nat (n_intervals bounds)) /\
    forall i p, nth_error df i = Some p ->
      exists L, (L < shape1 D)%nat /\
        (3 * Z.of_nat L < time p <= 3 * Z.of_nat L + 3)%Z /\
        (forall j, item D i j = if j =? L then IZR (event p) else 0) /\
        rsum (shape1 D) (item D i) = IZR (event p).
Proof.
  intros Hne Hshort.
  pose proof (times_below_2_32 df Hshort) as Htimes.
  destruct (preprocess_context df Hne (times_from_one df Htimes))
    as (tmax & bounds & n & _ & Hb & Hle & Ht & Hn & Hn1 & Hlen & Hni & _).
  assert (Hcol : forall p, In p df ->
            norm_index n (last_period (time p)) = Some (Z.to_nat (last_period (time p))) /\
            (Z.to_nat (last_period (time p)) < n)%nat).
  { intros p Hp. specialize (Htimes p Hp). specialize (Hle p Hp).
    destruct (last_period_column n tmax (time p) Hn ltac:(lia)) as (H1 & _ & H3).
    split; assumption. }
  exists bounds. unfold death. rewrite Hni.
  destruct (Z.ltb_spec (Z.of_nat n) 0) as [Hneg|_]; [lia|].
  rewrite Znat.Nat2Z.id.
  assert (Hall : forallb (fun p => is_some (norm_index n (last_period (time p)))) df
                 = true).
  { apply forallb_forall. intros p Hp. rewrite (proj1 (Hcol p Hp)). reflexivity. }
  rewrite Hall. eexists. split; [exact Hb|]. split; [reflexivity|].
  split; [split; reflexivity|].
  intros i p Hi. simpl.
  assert (Hp : In p df) by (apply nth_error_In with i; exact Hi).
  destruct (Hcol p Hp) as [Hnorm Hlt].
  specialize (Htimes p Hp). specialize (Hle p Hp).
  destruct (last_period_inside (time p) tmax ltac:(lia)) as [Hin Hbox].
  exists (Z.to_nat (last_period (time p))).
  split; [exact Hlt|]. split; [rewrite Znat.Z2Nat.id by lia; exact Hbox|].
  rewrite Hi, Hnorm. split; [intros j; reflexivity|].
  rewrite (rsum_ext n _ (fun j => delta (Z.to_nat (last_period (time p))) j *
                                  IZR (event p))).
  - apply (rsum_delta_l n _ (fun _ => IZR (event p)) Hlt).
  - intros j _. unfold delta. rewrite (Nat.eqb_sym j).
    destruct (_ =? j); lra.
Qed.

Lemma death_indicator_witness :
  exists bounds D,
    interval_bounds df_ex = Some bounds /\ death df_ex bounds = Some D /\
    has_shape D (length df_ex) (Z.to_nat (n_intervals bounds)) /\
    forall i p, nth_error df_ex i = Some p ->
      exists L, (L < shape1 D)%nat /\
        (3 * Z.of_nat L < time p <= 3 * Z.of_nat L + 3)%Z /\
        (forall j, item D i j = if j =? L then IZR (event p) else 0) /\
        rsum (shape1 D) (item D i) = IZR (event p).
Proof.
  apply (death_indicator df_ex df_ex_nonempty df_ex_times_short).
Defined.

(** *** Sums of integers *)

Lemma zsum_ext n f g :
  (forall k, (k < n)%nat -> f k = g k) -> zsum n f = zsum n g.
Proof.
  induction n as [|n IH]; intros H; simpl; [reflexivity|].
  rewrite IH by (intros; apply H; lia). rewrite H by lia. reflexivity.
Qed.

Lemma zsum_plus n f g :
  zsum n (fun k => (f k + g k)%Z) = (zsum n f + zsum n g)%Z.
Proof. induction n as [|n IH]; simpl; [reflexivity|rewrite IH; lia]. Qed.

Lemma zsum_below n L c :
  (L <= n)%nat ->
  zsum n (fun j => if j <? L then c else 0%Z) = (c * Z.of_nat L)%Z.
Proof.
  induction n as [|n IH]; intros HL; simpl.
  - replace L with O by lia. lia.
  - destruct (Nat.ltb_spec n L) as [Hlt|Hge].
    + assert (L = S n) by lia. subst L.
      rewrite (zsum_ext n _ (fun _ => c)).
      * clear. induction n as [|n IH]; [simpl; lia|].
        change (zsum (S n) (fun _ => c)) with (zsum n (fun _ => c) + c)%Z. lia.
      * intros k Hk. destruct (Nat.ltb_spec k (S n)); [reflexivity|lia].
    + rewrite IH by lia. lia.
Qed.

Lemma zsum_single n k c :
  zsum n (fun j => if j =? k then c else 0%Z) = if k <? n then c else 0%Z.
Proof.
  induction n as [|n IH]; simpl; [reflexivity|]. rewrite IH.
  destruct (Nat.eqb_spec n k) as [->|Hne].
  - rewrite Nat.ltb_irrefl. destruct (Nat.ltb_spec k (S k)); [lia|lia].
  - destruct (Nat.ltb_spec k n), (Nat.ltb_spec k (S n)); lia.
Qed.

(** The exposure cell on a frame of times between 1 and 2^62. *)
Lemma exposure_rows df :
  df <> [] -> (forall p, In p df -> (1 <= time p < 2 ^ 62)%Z) ->
  exists tmax bounds n E,
    interval_bounds df = Some bounds /\ exposure df bounds = Some E /\
    Z.of_nat n = (tmax / 3 + 1)%Z /\ n_intervals bounds = Z.of_nat n /\
    (forall p, In p df -> (time p <= tmax)%Z) /\
    zshape0 E = length df /\ zshape1 E = n /\
    forall i p, nth_error df i = Some p ->
      forall j, (j < n)%nat ->
        zitem E i j =
        if j =? Z.to_nat (last_period (time p))
        then (time p - 3 * last_period (time p))%Z
        else if (3 * Z.of_nat j <=? time p)%Z then 3%Z else 0%Z.
Proof.
  intros Hne Htimes.
  destruct (preprocess_context df Hne (times_from_one df Htimes))
    as (tmax & bounds & n & _ & Hb & Hle & Ht & Hn & Hn1 & Hlen & Hni & Hnth
        & Hlow & Hlownth).
  assert (Hcol : forall p, In p df ->
            norm_index n (last_period (time p)) = Some (Z.to_nat (last_period (time p))) /\
            norm_index (S n) (last_period (time p)) =
              Some (Z.to_nat (last_period (time p))) /\
            (Z.to_nat (last_period (time p)) < n)%nat).
  { intros p Hp. specialize (Htimes p Hp). specialize (Hle p Hp).
    apply (last_period_column n tmax (time p) Hn). lia. }
  exists tmax, bounds, n. unfold exposure. rewrite Hlow, Hlen.
  assert (Hall : forallb (fun p =>
             is_some (norm_index (S n) (last_period (time p))) &&
             is_some (norm_index n (last_period (time p)))) df = true).
  { apply forallb_forall. intros p Hp. destruct (Hcol p Hp) as (H1 & H2 & _).
    rewrite H1, H2. reflexivity. }
  rewrite Hall. eexists. split; [exact Hb|]. split; [reflexivity|].
  split; [exact Hn|]. split; [exact Hni|]. split; [exact Hle|].
  split; [reflexivity|]. split; [reflexivity|].
  intros i p Hi j Hj. simpl. rewrite Hi.
  assert (Hp : In p df) by (apply nth_error_In with i; exact Hi).
  destruct (Hcol p Hp) as (H1 & H2 & H3). rewrite H1, H2.
  specialize (Htimes p Hp). specialize (Hle p Hp).
  destruct (last_period_inside (time p) tmax ltac:(lia)) as [Hin Hbox].
  rewrite (Hnth (Z.to_nat (last_period (time p)))) by lia.
  rewrite Znat.Z2Nat.id by lia.
  rewrite (Hlownth j Hj), wrap64_small by lia.
  unfold interval_length. reflexivity.
Qed.

(** X14. For a non-empty frame of times between 1 and 2^32 the exposure is
    built without error; in the row of a patient whose last period is L the
    intervals before L hold the interval length 3, interval L holds the rest
    of the time, between 1 and 3, and a later interval holds 0, except the
    interval that starts exactly at the time of the patient, which holds 3.
    Below 2^32 the binary64 computation of the last period gives the exact
    floor, see [last_period]. *)
Theorem exposure_entries (df : list patient) :
  df <> [] -> (forall p, In p df -> (1 <= time p < 2 ^ 32)%Z) ->
  exists bounds E,
    interval_bounds df = Some bounds /\ exposure df bounds = Some E /\
    zshape0 E = length df /\ Z.of_nat (zshape1 E) = n_intervals bounds /\
    forall i p, nth_error df i = Some p ->
      exists L, (L < zshape1 E)%nat /\ Z.of_nat L = last_period (time p) /\
        (forall j, (j < L)%nat -> zitem E i j = 3%Z) /\
        zitem E i L = (time p - 3 * Z.of_nat L)%Z /\
        (1 <= zitem E i L <= 3)%Z /\
        (forall j, (L < j < zshape1 E)%nat ->
           zitem E i j = if (time p =? 3 * Z.of_nat j)%Z then 3%Z else 0%Z).
Proof.
  intros Hne Hshort.
  pose proof (times_below_2_32 df Hshort) as Htimes.
  destruct (exposure_rows df Hne Htimes)
    as (tmax & bounds & n & E & Hb & HE & Hn & Hni & Hle & Hs0 & Hs1 & Hrows).
  exists bounds, E. split; [exact Hb|]. split; [exact HE|].
  split; [exact Hs0|]. split; [rewrite Hs1, Hni; reflexivity|].
  intros i p Hi.
  assert (Hp : In p df) by (apply nth_error_In with i; exact Hi).
  specialize (Htimes p Hp). specialize (Hle p Hp).
  destruct (last_period_inside (time p) tmax ltac:(lia)) as [Hin Hbox].
  set (L := Z.to_nat (last_period (time p))).
  assert (HL : Z.of_nat L = last_period (time p))
    by (unfold L; rewrite Znat.Z2Nat.id; lia).
  assert (HLn : (L < n)%nat) by lia.
  exists L. rewrite Hs1. split; [exact HLn|]. split; [exact HL|].
  split; [|split; [|split]].
  - intros j Hj. rewrite (Hrows i p Hi j ltac:(lia)). fold L.
    destruct (Nat.eqb_spec j L); [lia|].
    destruct (Z.leb_spec (3 * Z.of_nat j) (time p)); [reflexivity|lia].
  - rewrite (Hrows i p Hi L HLn). fold L. rewrite Nat.eqb_refl, HL. reflexivity.
  - rewrite (Hrows i p Hi L HLn). fold L. rewrite Nat.eqb_refl. lia.
  - intros j Hj. rewrite (Hrows i p Hi j ltac:(lia)). fold L.
    destruct (Nat.eqb_spec j L); [lia|].
    destruct (Z.leb_spec (3 * Z.of_nat j) (time p)),
             (Z.eqb_spec (time p) (3 * Z.of_nat j)); lia.
Qed.

Lemma exposure_entries_witness :
  exists bounds E,
    interval_bounds df_ex = Some bounds /\ exposure df_ex bounds = Some E /\
    zshape0 E = length df_ex /\ Z.of_nat (zshape1 E) = n_intervals bounds /\
    forall i p, nth_error df_ex i = Some p ->
      exists L, (L < zshape1 E)%nat /\ Z.of_nat L = last_period (time p) /\
        (forall j, (j < L)%nat -> zitem E i j = 3%Z) /\
        zitem E i L = (time p - 3 * Z.of_nat L)%Z /\
        (1 <= zitem E i L <= 3)%Z /\
        (forall j, (L < j < zshape1 E)%nat ->
           zitem E i j = if (time p =? 3 * Z.of_nat j)%Z then 3%Z else 0%Z).
Proof.
  apply (exposure_entries df_ex df_ex_nonempty df_ex_times_short).
Defined.

(** X15. For a non-empty frame of times between 1 and 2^32, the exposures
    of a patient sum to its time when the time is not a multiple of the
    interval length 3, and to its time plus 3 when it is: the interval that
    starts at the time of the patient is counted in full.  Below 2^32 the
    binary64 computation of the last period gives the exact floor, see
    [last_period]. *)
Theorem exposure_total (df : list patient) :
  df <> [] -> (forall p, In p df -> (1 <= time p < 2 ^ 32)%Z) ->
  exists bounds E,
    interval_bounds df = Some bounds /\ exposure df bounds = Some E /\
    forall i p, nth_error df i = Some p ->
      zsum (zshape1 E) (zitem E i) =
      (time p + if (time p mod 3 =? 0)%Z then 3 else 0)%Z.
Proof.
  intros Hne Hshort.
  pose proof (times_below_2_32 df Hshort) as Htimes.
  destruct (exposure_rows df Hne Htimes)
    as (tmax & bounds & n & E & Hb & HE & Hn & Hni & Hle & Hs0 & Hs1 & Hrows).
  exists bounds, E. split; [exact Hb|]. split; [exact HE|].
  intros i p Hi. rewrite Hs1.
  assert (Hp : In p df) by (apply nth_error_In with i; exact Hi).
  specialize (Htimes p Hp). specialize (Hle p Hp).
  destruct (last_period_inside (time p) tmax ltac:(lia)) as [Hin Hbox].
  set (t := time p) in *.
  set (L := Z.to_nat (last_period t)).
  assert (HL : Z.of_nat L = last_period t) by (unfold L; rewrite Znat.Z2Nat.id; lia).
  assert (HLn : (L < n)%nat) by lia.
  rewrite <- HL in Hbox.
  pose proof (Z.div_mod tmax 3 ltac:(lia)) as Hdm.
  pose proof (Z.mod_pos_bound tmax 3 ltac:(lia)) as Hmb.
  pose proof (Z.div_mod t 3 ltac:(lia)) as Htdm.
  pose proof (Z.mod_pos_bound t 3 ltac:(lia)) as Htmb.
  assert (Hmult : (t mod 3 = 0 <-> t = 3 * Z.of_nat L + 3)%Z) by lia.
  rewrite (zsum_ext n _ (fun j =>
     ((if (j <? L)%nat then 3 else 0) +
      ((if (j =? L)%nat then t - 3 * Z.of_nat L else 0) +
       (if (j =? S L)%nat then (if (t mod 3 =? 0)%Z then 3 else 0) else 0)))%Z)).
  - rewrite !zsum_plus, zsum_below, !zsum_single by lia.
    destruct (Nat.ltb_spec L n) as [_|]; [|lia].
    destruct (Z.eqb_spec (t mod 3) 0) as [Hmod|Hmod].
    + apply Hmult in Hmod. destruct (Nat.ltb_spec (S L) n) as [_|Hge]; lia.
    + destruct (S L <? n)%nat; lia.
  - intros j Hj. rewrite (Hrows i p Hi j Hj). fold t. fold L. rewrite <- HL.
    destruct (Z.eqb_spec (t mod 3) 0) as [Hmod|Hmod];
      [apply Hmult in Hmod | assert (t <> 3 * Z.of_nat L + 3)%Z by tauto];
      destruct (Nat.ltb_spec j L), (Nat.eqb_spec j L), (Nat.eqb_spec j (S L));
      try lia;
      destruct (Z.leb_spec (3 * Z.of_nat j) t); lia.
Qed.

Lemma exposure_total_witness :
  exists bounds E,
    interval_bounds df_ex = Some bounds /\ exposure df_ex bounds = Some E /\
    forall i p, nth_error df_ex i = Some p ->
      zsum (zshape1 E) (zitem E i) =
      (time p + if (time p mod 3 =? 0)%Z then 3 else 0)%Z.
Proof.
  apply (exposure_total df_ex df_ex_nonempty df_ex_times_short).
Defined.




(** ** The survival-analysis notebook: hazards *)

Lemma cum_hazard_item hazard i j :
  item (cum_hazard hazard) i j = 3 * rsum (S j) (fun k => item hazard i k).
Proof.
  unfold cum_hazard, cumsum_last, scale, map_items, interval_length.
  cbn [item]. rewrite <- rsum_scal. reflexivity.
Qed.

Lemma survival_item hazard i j :
  item (survival hazard) i j = exp (- (3 * rsum (S j) (fun k => item hazard i k))).
Proof.
  unfold survival, exp_items, map_items. cbn [item].
  rewrite cum_hazard_item. reflexivity.
Qed.

(** X17. For hazards that are not negative, the survival of every draw
    starts at [exp (- 3 h_0)], is multiplied by [exp (- 3 h_j)] at interval
    j, stays in [0, 1] and never increases from an interval to the next;
    and it is at least [exp (-701)], a positive binary64 number, as long as
    the cumulative hazard is at most 700.  (The exponential is the exact
    one: [np.exp] returns 0.0 once the cumulative hazard exceeds about 745,
    which is why the lower bound is not strict without a bound on the
    hazards.) *)
Theorem survival_decreasing (hazard : matrix) (r c : nat) :
  has_shape hazard r c ->
  (forall i j, (i < r)%nat -> (j < c)%nat -> 0 <= item hazard i j) ->
  has_shape (survival hazard) r c /\
  forall i, (i < r)%nat ->
    item (survival hazard) i 0 = exp (- (3 * item hazard i 0)) /\
    forall j, (j < c)%nat ->
      0 <= item (survival hazard) i j <= 1 /\
      (item (cum_hazard hazard) i j <= 700 ->
       exp (- 701) <= item (survival hazard) i j) /\
      ((S j < c)%nat ->
       item (survival hazard) i (S j) =
         item (survival hazard) i j * exp (- (3 * item hazard i (S j))) /\
       item (survival hazard) i (S j) <= item (survival hazard) i j).
Proof.
  intros [H0 H1] Hpos. split; [split; simpl; assumption|].
  intros i Hi. split.
  - rewrite survival_item. simpl. f_equal. lra.
  - intros j Hj.
    assert (Hsum : 0 <= rsum (S j) (fun k => item hazard i k)).
    { apply rsum_nonneg. intros k Hk. apply Hpos; lia. }
    split; [|split].
    + rewrite survival_item. split; [left; apply exp_pos|].
      destruct (Req_dec_T (rsum (S j) (fun k => item hazard i k)) 0) as [E|Hne].
      * rewrite E. replace (- (3 * 0)) with 0 by lra. rewrite exp_0. lra.
      * left. rewrite <- exp_0. apply exp_increasing. lra.
    + rewrite cum_hazard_item, survival_item. intros Hcum.
      left. apply exp_increasing. lra.
    + intros HSj.
      assert (Hstep : item (survival hazard) i (S j) =
                item (survival hazard) i j * exp (- (3 * item hazard i (S j)))).
      { rewrite !survival_item, <- exp_plus. f_equal.
        change (rsum (S (S j)) (fun k => item hazard i k))
          with (rsum (S j) (fun k => item hazard i k) + item hazard i (S j)).
        lra. }
      split; [exact Hstep|]. rewrite Hstep.
      assert (Hh : 0 <= item hazard i (S j)) by (apply Hpos; lia).
      assert (Hle : exp (- (3 * item hazard i (S j))) <= 1).
      { destruct (Req_dec_T (item hazard i (S j)) 0) as [E|Hne].
        - rewrite E. replace (- (3 * 0)) with 0 by lra. rewrite exp_0. lra.
        - left. rewrite <- exp_0. apply exp_increasing. lra. }
      pose proof (exp_pos (- (3 * rsum (S j) (fun k => item hazard i k)))) as Hs.
      rewrite survival_item. nra.
Qed.

Lemma lambda0_ex_nonneg :
  forall i j, (i < 2)%nat -> (j < 3)%nat -> 0 <= item lambda0_ex i j.
Proof.
  intros i j Hi Hj.
  destruct i as [|[|i]]; [| |lia]; destruct j as [|[|[|j]]]; try lia; simpl; lra.
Qed.

Lemma survival_decreasing_witness :
  has_shape (survival lambda0_ex) 2 3 /\
  forall i, (i < 2)%nat ->
    item (survival lambda0_ex) i 0 = exp (- (3 * item lambda0_ex i 0)) /\
    forall j, (j < 3)%nat ->
      0 <= item (survival lambda0_ex) i j <= 1 /\
      (item (cum_hazard lambda0_ex) i j <= 700 ->
       exp (- 701) <= item (survival lambda0_ex) i j) /\
      ((S j < 3)%nat ->
       item (survival lambda0_ex) i (S j) =
         item (survival lambda0_ex) i j * exp (- (3 * item lambda0_ex i (S j))) /\
       item (survival lambda0_ex) i (S j) <= item (survival lambda0_ex) i j).
Proof.
  apply (survival_decreasing lambda0_ex 2 3 (conj eq_refl eq_refl) lambda0_ex_nonneg).
Defined.

(** X18. When the trace of [beta] has one value per draw, the hazard of the
    metastized patients is the base hazard of the draw times [exp beta]; its
    cumulative hazard is [exp beta] times the base one, and its survival is
    the base survival raised to the power [exp beta]. *)
Theorem met_hazard_proportional (lambda0 : matrix) (beta : vector) (s n : nat) :
  has_shape lambda0 s n -> len beta = s ->
  exists M, met_hazard lambda0 beta = Ok M /\ has_shape M s n /\
    forall i j, (i < s)%nat -> (j < n)%nat ->
      item M i j = item lambda0 i j * exp (vitem beta i) /\
      item (cum_hazard M) i j =
        exp (vitem beta i) * item (cum_hazard lambda0) i j /\
      item (survival M) i j =
        Rpower (item (survival lambda0) i j) (exp (vitem beta i)).
Proof.
  intros [H0 H1] Hlen.
  unfold met_hazard, broadcast2.
  cbn [shape0 shape1 exp_items map_items transpose atleast_2d].
  rewrite H0, H1, Hlen, broadcast_dim_refl, broadcast_dim_l. cbn [bind].
  eexists. split; [reflexivity|]. split; [split; reflexivity|].
  intros i j Hi Hj.
  match goal with |- context [cum_hazard ?M] => set (M0 := M) end.
  assert (Hitem : forall k, (k < n)%nat ->
            item M0 i k = item lambda0 i k * exp (vitem beta i)).
  { intros k Hk. unfold M0. cbn [item].
    rewrite !bidx_lt by assumption. reflexivity. }
  assert (Hcum : 3 * rsum (S j) (fun k => item M0 i k) =
                 exp (vitem beta i) *
                 (3 * rsum (S j) (fun k => item lambda0 i k))).
  { rewrite (rsum_ext (S j) _ (fun k => exp (vitem beta i) * item lambda0 i k)).
    - rewrite (rsum_scal (S j) (exp (vitem beta i)) (fun k => item lambda0 i k)).
      lra.
    - intros k Hk. rewrite Hitem by lia. lra. }
  split; [|split].
  - apply Hitem. exact Hj.
  - rewrite !cum_hazard_item. exact Hcum.
  - rewrite !survival_item. unfold Rpower. rewrite ln_exp, Hcum. f_equal. lra.
Qed.

Lemma met_hazard_proportional_witness :
  exists M, met_hazard lambda0_ex beta_ex = Ok M /\ has_shape M 2 3 /\
    forall i j, (i < 2)%nat -> (j < 3)%nat ->
      item M i j = item lambda0_ex i j * exp (vitem beta_ex i) /\
      item (cum_hazard M) i j =
        exp (vitem beta_ex i) * item (cum_hazard lambda0_ex) i j /\
      item (survival M) i j =
        Rpower (item (survival lambda0_ex) i j) (exp (vitem beta_ex i)).
Proof.
  apply (met_hazard_proportional lambda0_ex beta_ex 2 3); [split|]; reflexivity.
Defined.
